(** * ConvertImgToMP4: images under a directory tree assembled into a video

    A shallow embedding of [__main__.py]: [get_image_files] (directory walk
    and extension filter), [resize_image] (aspect-preserving scale and
    padding, in Python's double-precision arithmetic) and
    [create_video_from_images] (the read / resize / write loop around the
    OpenCV video writer), with theorems about each.

    Python [float] is IEEE 754 binary64; it is modelled by the Standard
    Library's executable specification [SpecFloat] at [prec = 53],
    [emax = 1024].  Paths follow [posixpath].  The OpenCV calls are
    modelled by what the program can observe of them: the shape of the
    arrays they return and the exceptions they raise. *)

From Stdlib Require Import ZArith List Bool Ascii String Lia Reals Lra.
From Stdlib Require Import Floats.SpecFloat.
Import ListNotations.
Local Open Scope Z_scope.

(** ** Python exceptions and results *)

Inductive exn : Type :=
| IndexError
| AttributeError
| ZeroDivisionError
| OverflowError
| ValueError
| CvError.

Inductive result (A : Type) : Type :=
| Ok (a : A)
| Raise (e : exn).

Arguments Ok {A} a.
Arguments Raise {A} e.

Definition rbind {A B : Type} (r : result A) (k : A -> result B) : result B :=
  match r with
  | Ok a => k a
  | Raise e => Raise e
  end.

Notation "x <- c ;; k" := (rbind c (fun x => k))
  (at level 61, c at next level, right associativity).

(** ** Python numbers: [int] is [Z], [float] is binary64 *)

Module PyFloat.

Definition prec : Z := 53.
Definition emax : Z := 1024.

Definition float : Type := spec_float.

(** [float(n)] as done implicitly by [n * x]: the nearest double, ties to
    even; an [int] too large for a double raises. *)
Definition float_of_int (n : Z) : result float :=
  match binary_normalize prec emax n 0 false with
  | S754_infinity _ => Raise OverflowError
  | f => Ok f
  end.

(** [a / b] on two [int]s: the correctly rounded quotient (CPython's
    [long_true_divide]); a zero divisor raises, a zero dividend gives a
    signed zero. *)
Definition int_truediv (a b : Z) : result float :=
  match b with
  | Z0 => Raise ZeroDivisionError
  | _ =>
      match a with
      | Z0 => Ok (S754_zero (b <? 0))
      | _ =>
          let '(q, e, l) := SFdiv_core_binary prec emax (Z.abs a) 0 (Z.abs b) 0 in
          match binary_round_aux prec emax (xorb (a <? 0) (b <? 0)) q e l with
          | S754_infinity _ => Raise OverflowError
          | f => Ok f
          end
      end
  end.

(** [x * y] on two [float]s. *)
Definition float_mul (x y : float) : float := SFmul prec emax x y.

(** [n * x] with [n] an [int] and [x] a [float]. *)
Definition int_mul_float (n : Z) (x : float) : result float :=
  f <- float_of_int n ;;
  Ok (float_mul f x).

(** [min(x, y)]: the first argument unless the second is smaller. *)
Definition py_min (x y : float) : float :=
  if SFltb y x then y else x.

(** [int(x)]: truncation toward zero. *)
Definition int_of_float (x : float) : result Z :=
  match x with
  | S754_zero _ => Ok 0
  | S754_infinity _ => Raise OverflowError
  | S754_nan => Raise ValueError
  | S754_finite s m e =>
      let a := match e with
               | Zneg p => Zpos m / 2 ^ Zpos p
               | _ => Zpos m * 2 ^ e
               end in
      Ok (if s then - a else a)
  end.

End PyFloat.

(** ** Python strings and [posixpath] *)

Definition str : Type := list ascii.

Definition lit (s : string) : str := list_ascii_of_string s.

Module PyStr.

Definition ascii_lower (c : ascii) : ascii :=
  let n := nat_of_ascii c in
  if (65 <=? n)%nat && (n <=? 90)%nat then ascii_of_nat (n + 32) else c.

(** [s.lower()].  Names are byte strings here and only the ASCII letters
    are mapped; no character outside ASCII lowers to one of the letters of
    the four suffixes tested by the program. *)
Definition lower (s : str) : str := map ascii_lower s.

Fixpoint str_eqb (a b : str) : bool :=
  match a, b with
  | [], [] => true
  | x :: a', y :: b' => Ascii.eqb x y && str_eqb a' b'
  | _, _ => false
  end.

(** [s.startswith(p)] *)
Fixpoint startswith (s p : str) : bool :=
  match p, s with
  | [], _ => true
  | y :: p', x :: s' => Ascii.eqb x y && startswith s' p'
  | _ :: _, [] => false
  end.

(** [s.endswith(p)] *)
Definition endswith (s p : str) : bool :=
  (List.length p <=? List.length s)%nat && str_eqb (skipn (List.length s - List.length p) s) p.

(** [s.endswith((p1, ..., pn))] *)
Definition endswith_any (s : str) (ps : list str) : bool :=
  existsb (endswith s) ps.

End PyStr.

Module OsPath.

Definition sep : ascii := "/"%char.

Definition is_sep (c : ascii) : bool := Ascii.eqb c sep.

(** [os.path.join(a, b)] of [posixpath]. *)
Definition join (a b : str) : str :=
  if PyStr.startswith b [sep] then b
  else if (match a with [] => true | _ => false end) || PyStr.endswith a [sep]
       then a ++ b
       else a ++ sep :: b.

(** [p[:p.rfind('/') + 1]] *)
Fixpoint head_to_last_sep (p : str) : str :=
  match p with
  | [] => []
  | c :: r =>
      let h := head_to_last_sep r in
      if is_sep c then c :: h
      else match h with
           | [] => []
           | _ :: _ => c :: h
           end
  end.

(** [s.rstrip('/')] *)
Fixpoint rstrip_sep (s : str) : str :=
  match s with
  | [] => []
  | c :: r =>
      match rstrip_sep r with
      | [] => if is_sep c then [] else [c]
      | r' => c :: r'
      end
  end.

(** [os.path.dirname(p)] of [posixpath]. *)
Definition dirname (p : str) : str :=
  let head := head_to_last_sep p in
  if (match head with [] => false | _ => true end) && negb (forallb is_sep head)
  then rstrip_sep head
  else head.

End OsPath.

(** ** OpenCV: arrays by shape and pixel access *)

Module Cv2.

(** A pixel of a colour image: blue, green, red. *)
Definition pixel : Type := (Z * Z * Z)%type.

(** [Scalar()], the default border value. *)
Definition black : pixel := (0, 0, 0).

(** A decoded image ([numpy.ndarray] of shape [(rows, cols, 3)]):
    [px y x] is the pixel of row [y] and column [x]. *)
Record image : Type := {
  rows : Z;
  cols : Z;
  px : Z -> Z -> pixel
}.

(** [image.shape] *)
Definition shape (i : image) : Z * Z * Z := (rows i, cols i, 3).

(** An argument that the binding converts to a C [int]. *)
Definition c_int (n : Z) : bool := (- 2 ^ 31 <=? n) && (n <? 2 ^ 31).

Inductive border_type : Type :=
| BORDER_CONSTANT.

Section Resampling.

(** The interpolation of [cv2.resize]: [interp src w h y x] is the pixel at
    row [y], column [x] of [src] resampled to [w] columns and [h] rows.  The
    program does not depend on which one it is. *)
Variable interp : image -> Z -> Z -> Z -> Z -> pixel.

(** [cv2.resize(src, (w, h))]: an array of [h] rows and [w] columns; an empty
    size ([w <= 0] or [h <= 0]) fails OpenCV's assertion. *)
Definition resize (src : image) (dsize : Z * Z) : result image :=
  let '(w, h) := dsize in
  if c_int w && c_int h && (0 <? w) && (0 <? h)
  then Ok {| rows := h; cols := w; px := interp src w h |}
  else Raise CvError.

End Resampling.

(** [cv2.copyMakeBorder(src, top, bottom, left, right, cv2.BORDER_CONSTANT)]:
    [src] surrounded by a border of the default value; a negative border
    width fails OpenCV's assertion. *)
Definition copyMakeBorder (src : image) (top bottom left right : Z)
  (borderType : border_type) : result image :=
  if c_int top && c_int bottom && c_int left && c_int right
     && (0 <=? top) && (0 <=? bottom) && (0 <=? left) && (0 <=? right)
  then Ok {| rows := top + rows src + bottom;
             cols := left + cols src + right;
             px := fun y x =>
                     if (top <=? y) && (y <? top + rows src)
                        && (left <=? x) && (x <? left + cols src)
                     then px src (y - top) (x - left)
                     else match borderType with BORDER_CONSTANT => black end |}
  else Raise CvError.

End Cv2.

(** ** The file system and the decoder *)

(** A directory entry as [os.walk] sees it.  A [Dir] that is not [walkable]
    is listed by its parent but yields nothing itself: [os.scandir] fails on
    it (the error is ignored, [onerror=None]) or it is a symbolic link
    ([followlinks=False]). *)
#[warnings="-register-all"]
Inductive entry : Type :=
| File (name : str)
| Dir (name : str) (walkable : bool) (children : list entry).

(** What the run reads from its environment: [scandir p] is the content of
    the directory at path [p], [None] when [os.scandir(p)] raises (no such
    path, not a directory, no permission); [imread p] is the image decoded
    from the file at [p], [None] when [cv2.imread] cannot read or decode it. *)
Record world : Type := {
  scandir : str -> option (list entry);
  imread : str -> option Cv2.image
}.

(** ** Observable actions of a run *)

Inductive event : Type :=
| EvImread (p : str)
| EvVideoWriter (p : str) (fourcc : str) (fps : Z) (width height : Z)
| EvTqdm (total : Z)
| EvWrite (frame : Cv2.image)
| EvUpdate (n : Z)
| EvRelease
| EvDestroyAllWindows
| EvClose
| EvPrint (msg : str).

(** A computation that logs its actions and may raise. *)
Definition M (A : Type) : Type := (list event * result A)%type.

Definition ret {A : Type} (a : A) : M A := ([], Ok a).

Definition emit (ev : event) : M unit := ([ev], Ok tt).

Definition lift {A : Type} (r : result A) : M A := ([], r).

Definition bind {A B : Type} (c : M A) (k : A -> M B) : M B :=
  match c with
  | (t, Ok a) => let '(t', r) := k a in (t ++ t', r)
  | (t, Raise e) => (t, Raise e)
  end.

Notation "x <~ c ;; k" := (bind c (fun x => k))
  (at level 61, c at next level, right associativity).

(** [for x in l: body(x)] *)
Fixpoint for_each {A : Type} (l : list A) (body : A -> M unit) : M unit :=
  match l with
  | [] => ret tt
  | x :: l' => _ <~ body x ;; for_each l' body
  end.

(** [l[i]] for [i >= 0] *)
Definition index {A : Type} (l : list A) (i : nat) : result A :=
  match nth_error l i with
  | Some a => Ok a
  | None => Raise IndexError
  end.

(** ** The program *)

Section Program.

Variable interp : Cv2.image -> Z -> Z -> Z -> Z -> Cv2.pixel.

(** [resize_image(image, width, height)]; [image] is what [cv2.imread]
    returned, [None] included. *)
Definition resize_image (image : option Cv2.image) (width height : Z)
  : result Cv2.image :=
  img <- match image with
         | Some i => Ok i
         | None => Raise AttributeError
         end ;;
  a <- PyFloat.int_truediv width (Cv2.cols img) ;;
  b <- PyFloat.int_truediv height (Cv2.rows img) ;;
  let aspect_ratio := PyFloat.py_min a b in
  pw <- PyFloat.int_mul_float (Cv2.cols img) aspect_ratio ;;
  new_width <- PyFloat.int_of_float pw ;;
  ph <- PyFloat.int_mul_float (Cv2.rows img) aspect_ratio ;;
  new_height <- PyFloat.int_of_float ph ;;
  resized_image <- Cv2.resize interp img (new_width, new_height) ;;
  hw <- PyFloat.int_truediv (width - new_width) 2 ;;
  padding_width <- PyFloat.int_of_float hw ;;
  hh <- PyFloat.int_truediv (height - new_height) 2 ;;
  padding_height <- PyFloat.int_of_float hh ;;
  Cv2.copyMakeBorder resized_image padding_height padding_height
    padding_width padding_width Cv2.BORDER_CONSTANT.

Definition image_suffixes : list str :=
  [lit ".png"; lit ".jpg"; lit ".jpeg"; lit ".gif"].

(** [file.lower().endswith(('.png', '.jpg', '.jpeg', '.gif'))] *)
Definition is_image_file (file : str) : bool :=
  PyStr.endswith_any (PyStr.lower file) image_suffixes.

Definition dirs (es : list entry) : list str :=
  flat_map (fun e => match e with Dir n _ _ => [n] | File _ => [] end) es.

Definition nondirs (es : list entry) : list str :=
  flat_map (fun e => match e with File n => [n] | Dir _ _ _ => [] end) es.

(** The triples [os.walk] yields for one entry of the directory [top], top
    down: the entry's own triple, then those of its subdirectories in order. *)
Fixpoint walk_entry (top : str) (e : entry) : list (str * list str * list str) :=
  match e with
  | File _ => []
  | Dir name walkable children =>
      if walkable
      then let p := OsPath.join top name in
           (p, dirs children, nondirs children) :: flat_map (walk_entry p) children
      else []
  end.

(** [os.walk(top)] *)
Definition os_walk (w : world) (top : str) : list (str * list str * list str) :=
  match scandir w top with
  | None => []
  | Some es => (top, dirs es, nondirs es) :: flat_map (walk_entry top) es
  end.

(** [get_image_files(path)] *)
Definition get_image_files (w : world) (path : str) : list str :=
  flat_map (fun '(root, _, files) =>
              map (OsPath.join root) (filter is_image_file files))
           (os_walk w path).

Definition output_width : Z := 2560.
Definition output_height : Z := 1440.
Definition output_fps : Z := 60.

(** The output path computed at the top of [create_video_from_images]. *)
Definition output_path (file_name : option str) (path : str)
  (destination_folder : option str) : str :=
  let file_name := match file_name with
                   | None => lit "none"
                   | Some n => n
                   end in
  let destination_folder := match destination_folder with
                            | None => OsPath.dirname path
                            | Some d => d
                            end in
  OsPath.join destination_folder (file_name ++ lit ".mp4").

(** [cv2.imread(p)] as an action. *)
Definition cv2_imread (w : world) (p : str) : M (option Cv2.image) :=
  _ <~ emit (EvImread p) ;; ret (imread w p).

(** [x.shape] on what [cv2.imread] returned. *)
Definition shape_of (image : option Cv2.image) : result (Z * Z * Z) :=
  match image with
  | Some i => Ok (Cv2.shape i)
  | None => Raise AttributeError
  end.

(** The body of the loop over [image_files]. *)
Definition add_frame (w : world) (image_file : str) : M unit :=
  image <~ cv2_imread w image_file ;;
  resized_image <~ lift (resize_image image output_width output_height) ;;
  _ <~ emit (EvWrite resized_image) ;;
  emit (EvUpdate 1).

(** [create_video_from_images(file_name, path, destination_folder)] *)
Definition create_video_from_images (w : world) (file_name : option str)
  (path : str) (destination_folder : option str) : M unit :=
  let output_path := output_path file_name path destination_folder in
  let image_files := get_image_files w path in
  f0 <~ lift (index image_files 0) ;;
  first_image <~ cv2_imread w f0 ;;
  _ <~ lift (shape_of first_image) ;;
  _ <~ emit (EvVideoWriter output_path (lit "mp4v") output_fps output_width output_height) ;;
  _ <~ emit (EvTqdm (Z.of_nat (List.length image_files))) ;;
  _ <~ for_each image_files (add_frame w) ;;
  _ <~ emit EvRelease ;;
  _ <~ emit EvDestroyAllWindows ;;
  _ <~ emit EvClose ;;
  emit (EvPrint (lit "Video created successfully at: " ++ output_path)).

(** The script's entry point on [sys.argv]. *)
Definition main (w : world) (argv : list str) : M unit :=
  let file_name := if (1 <? List.length argv)%nat then nth_error argv 1 else None in
  path <~ lift (index argv 2) ;;
  let destination_folder := if (3 <? List.length argv)%nat then nth_error argv 3 else None in
  create_video_from_images w file_name path destination_folder.

(** *** Reading a run *)

(** The frames appended to the video, in order. *)
Definition frames_written (t : list event) : list Cv2.image :=
  flat_map (fun ev => match ev with EvWrite f => [f] | _ => [] end) t.

(** The files handed to the decoder, in order. *)
Definition files_read (t : list event) : list str :=
  flat_map (fun ev => match ev with EvImread p => [p] | _ => [] end) t.

(** The output files opened, in order. *)
Definition files_opened (t : list event) : list str :=
  flat_map (fun ev => match ev with EvVideoWriter p _ _ _ _ => [p] | _ => [] end) t.

(** How many times the writer was released. *)
Definition releases (t : list event) : nat :=
  List.length (filter (fun ev => match ev with EvRelease => true | _ => false end) t).

(** The frame [resize_image] prepares from the file at [p]. *)
Definition prepared (w : world) (p : str) : result Cv2.image :=
  resize_image (imread w p) output_width output_height.

(** The scaled size [(new_width, new_height)] that [resize_image] computes
    for a source of [sw] columns and [sh] rows and a box of [tw] by [th]. *)
Definition scaled_size (sw sh tw th : Z) : result (Z * Z) :=
  a <- PyFloat.int_truediv tw sw ;;
  b <- PyFloat.int_truediv th sh ;;
  let aspect_ratio := PyFloat.py_min a b in
  pw <- PyFloat.int_mul_float sw aspect_ratio ;;
  new_width <- PyFloat.int_of_float pw ;;
  ph <- PyFloat.int_mul_float sh aspect_ratio ;;
  new_height <- PyFloat.int_of_float ph ;;
  Ok (new_width, new_height).

End Program.

(** ** Notions used to state the properties *)

(** The log of a loop that prepared and appended [frames] from [files]. *)
Definition loop_log (files : list str) (frames : list Cv2.image) : list event :=
  flat_map (fun '(f, fr) => [EvImread f; EvWrite fr; EvUpdate 1])
           (combine files frames).

(** The log of a run that completes on [files]. *)
Definition complete_log (out : str) (files : list str) (frames : list Cv2.image)
  : list event :=
  [EvImread (hd [] files);
   EvVideoWriter out (lit "mp4v") output_fps output_width output_height;
   EvTqdm (Z.of_nat (List.length files))]
  ++ loop_log files frames
  ++ [EvRelease; EvDestroyAllWindows; EvClose;
      EvPrint (lit "Video created successfully at: " ++ out)].

(** [l1] is an initial segment of [l2]. *)
Definition prefix_of {A : Type} (l1 l2 : list A) : Prop :=
  exists rest, l2 = l1 ++ rest.

(** The extension of a file name: what follows its last dot. *)
Fixpoint extension (name : str) : option str :=
  match name with
  | [] => None
  | c :: r =>
      match extension r with
      | Some e => Some e
      | None => if Ascii.eqb c "."%char then Some r else None
      end
  end.

Definition image_extensions : list str :=
  [lit "png"; lit "jpg"; lit "jpeg"; lit "gif"].

(** The extension of [name] is, up to case, one of [image_extensions]. *)
Definition has_image_extension (name : str) : bool :=
  match extension name with
  | Some e => existsb (PyStr.str_eqb (PyStr.lower e)) image_extensions
  | None => false
  end.

(** [file_under top es full name]: the directory at path [top] with content
    [es] holds, directly or in a directory below it that can be walked, a
    file called [name] whose full path is [full]. *)
Inductive file_under : str -> list entry -> str -> str -> Prop :=
| file_here (top : str) (es : list entry) (name : str) :
    In (File name) es ->
    file_under top es (OsPath.join top name) name
| file_below (top : str) (es : list entry) (d : str) (cs : list entry)
    (full name : str) :
    In (Dir d true cs) es ->
    file_under (OsPath.join top d) cs full name ->
    file_under top es full name.

(** The image paths of one triple yielded by the walk. *)
Definition image_paths (triple : str * list str * list str) : list str :=
  let '(root, _, files) := triple in
  map (OsPath.join root) (filter is_image_file files).

(** What a directory entry contributes to discovery: the image files in
    and below it when it can be walked, nothing otherwise. *)
Definition entry_spec (e : entry) : Prop :=
  forall top p,
    In p (flat_map image_paths (walk_entry top e))
    <-> exists d cs name,
          e = Dir d true cs
          /\ file_under (OsPath.join top d) cs p name
          /\ is_image_file name = true.

(** The output path as the specification words it. *)
Definition spec_output_path (destination_folder name : str) : str :=
  destination_folder ++ lit "/" ++ name ++ lit ".mp4".

(** ** Sample data *)

(** Nearest-neighbour sampling, one possible resampling. *)
Definition nearest (src : Cv2.image) (w h y x : Z) : Cv2.pixel :=
  Cv2.px src (y * Cv2.rows src / h) (x * Cv2.cols src / w).

(** A grey image of [w] columns and [h] rows. *)
Definition grey (w h : Z) : Cv2.image :=
  {| Cv2.rows := h; Cv2.cols := w; Cv2.px := fun _ _ => (128, 128, 128) |}.

Definition in_dir : str := lit "/data/in".

(** One directory holding the given entries, and a decoder. *)
Definition folder (es : list entry) (decode : str -> option Cv2.image) : world :=
  {| scandir := fun p => if PyStr.str_eqb p in_dir then Some es else None;
     imread := decode |}.

(** Three pictures of mixed sizes, one of them in a subdirectory. *)
Definition three_pictures : world :=
  folder [File (lit "a.jpg"); File (lit "notes.txt");
          Dir (lit "more") true [File (lit "b.JPG")]; File (lit "c.jpeg")]
    (fun p => if PyStr.endswith p (lit "a.jpg") then Some (grey 800 600)
              else if PyStr.endswith p (lit "b.JPG") then Some (grey 1920 1080)
              else if PyStr.endswith p (lit "c.jpeg") then Some (grey 640 480)
              else None).

(** The same folder with an undecodable second picture. *)
Definition corrupt_second : world :=
  folder [File (lit "a.jpg"); File (lit "bad.png"); File (lit "c.jpeg")]
    (fun p => if PyStr.endswith p (lit "a.jpg") then Some (grey 800 600)
              else if PyStr.endswith p (lit "c.jpeg") then Some (grey 640 480)
              else None).

(** A folder without pictures, and no folder at all. *)
Definition no_pictures : world := folder [File (lit "notes.txt")] (fun _ => None).

Definition no_folder : world :=
  {| scandir := fun _ => None; imread := fun _ => None |}.

(** A single picture of 1439 by 1440 pixels. *)
Definition odd_picture : world :=
  folder [File (lit "odd.png")] (fun _ => Some (grey 1439 1440)).

(** The padding [int((target - scaled) / 2)] that [resize_image] puts on
    each side of an axis. *)
Definition padding (target scaled : Z) : result Z :=
  half <- PyFloat.int_truediv (target - scaled) 2 ;;
  PyFloat.int_of_float half.

(** Row [y], column [x] lies in the picture placed at offset [(top, left)]. *)
Definition inside (top left : Z) (picture : Cv2.image) (y x : Z) : Prop :=
  top <= y < top + Cv2.rows picture /\ left <= x < left + Cv2.cols picture.

(** An optional argument with its default. *)
Definition supplied_or {A : Type} (o : option A) (default : A) : A :=
  match o with
  | Some a => a
  | None => default
  end.

(** A shifted mantissa is exact when no bit was lost in the shift. *)
Definition exact_record (mrs : shr_record) : Prop :=
  shr_r mrs = false /\ shr_s mrs = false.

(** The real number [2 ^ e]. *)
Definition bpow (e : Z) : R := powerRZ 2 e.

(** The real number a float stands for (0 for infinities and NaN). *)
Definition value (x : spec_float) : R :=
  match x with
  | S754_finite s m e => (if s then - IZR (Zpos m) else IZR (Zpos m)) * bpow e
  | _ => 0%R
  end.

(** A positive normal float with its exponent between [lo] and [hi]. *)
Definition normal_in (lo hi : Z) (x : spec_float) : Prop :=
  match x with
  | S754_finite false m e => 2 ^ 52 <= Zpos m < 2 ^ 53 /\ lo <= e <= hi
  | _ => False
  end.

(** The scale factor [min(width / image.shape[1], height / image.shape[0])]
    that [resize_image] computes for a source of [sw] columns and [sh] rows
    and a box of [tw] by [th]. *)
Definition aspect_ratio (sw sh tw th : Z) : result PyFloat.float :=
  a <- PyFloat.int_truediv tw sw ;;
  b <- PyFloat.int_truediv th sh ;;
  Ok (PyFloat.py_min a b).

(** A source dimension scaled and truncated: [int(d * s)]. *)
Definition scaled (d : Z) (s : PyFloat.float) : result Z :=
  p <- PyFloat.int_mul_float d s ;;
  PyFloat.int_of_float p.

(** The log of a run stopped inside the loop at the file [g], after the
    files [pre] were prepared and written. *)
Definition stopped_log (out : str) (files pre : list str)
  (frames : list Cv2.image) (g : str) : list event :=
  [EvImread (hd g pre);
   EvVideoWriter out (lit "mp4v") output_fps output_width output_height;
   EvTqdm (Z.of_nat (List.length files))]
  ++ loop_log pre frames ++ [EvImread g].

(** How many times the progress bar was advanced. *)
Definition progress_updates (t : list event) : nat :=
  List.length (filter (fun ev => match ev with EvUpdate _ => true | _ => false end) t).

(** The float [f] is the normal binary64 representation of the positive
    integer [n]. *)
Definition represents (f : spec_float) (n : Z) : Prop :=
  match f with
  | S754_finite false m e =>
      2 ^ 52 <= Zpos m < 2 ^ 53 /\ e <= 0 /\ Zpos m = n * 2 ^ (- e)
  | _ => False
  end.

(** The frames encoded by the actions [t], [size] being the frame size of
    the writer that is open.  [VideoWriter.write] encodes a frame whose
    size is the one the writer was opened with; a frame of another size is
    dropped, and no exception is raised. *)
Fixpoint encoded (size : option (Z * Z)) (t : list event) : list Cv2.image :=
  match t with
  | [] => []
  | EvVideoWriter _ _ _ width height :: t' => encoded (Some (width, height)) t'
  | EvWrite frame :: t' =>
      match size with
      | Some (width, height) =>
          if (Cv2.cols frame =? width) && (Cv2.rows frame =? height)
          then frame :: encoded size t'
          else encoded size t'
      | None => encoded size t'
      end
  | _ :: t' => encoded size t'
  end.

(** The frames the produced video holds after a run of log [t]. *)
Definition video_frames (t : list event) : list Cv2.image := encoded None t.

(** The letters of the alphabet, in lower case and as capitals. *)
Definition small_letters : str := lit "abcdefghijklmnopqrstuvwxyz".
Definition capital_letters : str := lit "ABCDEFGHIJKLMNOPQRSTUVWXYZ".

(** [c] and [d] are the same character, or the same letter in two cases. *)
Definition same_letter (c d : ascii) : bool :=
  Ascii.eqb c d
  || existsb (fun '(small, capital) =>
                (Ascii.eqb c small && Ascii.eqb d capital)
                || (Ascii.eqb c capital && Ascii.eqb d small))
       (combine small_letters capital_letters).

(** [a] and [b] are the same text when case is ignored. *)
Fixpoint caseless_eqb (a b : str) : bool :=
  match a, b with
  | [], [] => true
  | c :: a', d :: b' => same_letter c d && caseless_eqb a' b'
  | _, _ => false
  end.

(** The extension of [name], compared without regard to case, is one of
    [image_extensions]. *)
Definition extension_is_image (name : str) : bool :=
  match extension name with
  | Some e => existsb (caseless_eqb e) image_extensions
  | None => false
  end.

(** [file_in_tree top es full name]: the directory at path [top] with
    content [es] holds, directly or in any directory below it, a file
    called [name] whose full path is [full]. *)
Inductive file_in_tree : str -> list entry -> str -> str -> Prop :=
| in_tree_here (top : str) (es : list entry) (name : str) :
    In (File name) es ->
    file_in_tree top es (OsPath.join top name) name
| in_tree_below (top : str) (es : list entry) (d : str) (walkable : bool)
    (cs : list entry) (full name : str) :
    In (Dir d walkable cs) es ->
    file_in_tree (OsPath.join top d) cs full name ->
    file_in_tree top es full name.

(** A folder with one picture and a symbolic link to a directory that holds
    another. *)
Definition linked_folder : world :=
  folder [File (lit "a.png"); Dir (lit "link") false [File (lit "hidden.png")]]
    (fun _ => Some (grey 800 600)).


(** * Binary64 arithmetic *)

Section Rounding.

Import PyFloat.

(** ** Digits *)

Lemma digits2_pos_bounds (p : positive) :
  2 ^ (Zpos (digits2_pos p) - 1) <= Zpos p < 2 ^ Zpos (digits2_pos p).
Proof.
  induction p as [p IH | p IH |]; cbn [digits2_pos].
  - rewrite Pos2Z.inj_succ, Z.pow_succ_r by lia.
    replace (Z.succ (Zpos (digits2_pos p)) - 1) with (Z.succ (Zpos (digits2_pos p) - 1)) by lia.
    rewrite Z.pow_succ_r by lia. lia.
  - rewrite Pos2Z.inj_succ, Z.pow_succ_r by lia.
    replace (Z.succ (Zpos (digits2_pos p)) - 1) with (Z.succ (Zpos (digits2_pos p) - 1)) by lia.
    rewrite Z.pow_succ_r by lia. lia.
  - simpl. lia.
Qed.

Lemma Zdigits2_bounds (m : Z) :
  0 < m -> 0 < Zdigits2 m /\ 2 ^ (Zdigits2 m - 1) <= m < 2 ^ Zdigits2 m.
Proof.
  destruct m as [|p|p]; try lia. intros _. cbn [Zdigits2].
  split; [lia | apply digits2_pos_bounds].
Qed.

Lemma Zdigits2_unique (m d : Z) :
  2 ^ (d - 1) <= m < 2 ^ d -> 0 < m -> Zdigits2 m = d.
Proof.
  intros H Hm. destruct (Zdigits2_bounds m Hm) as (Hd & Hb).
  assert (0 < d).
  { destruct (Z_lt_le_dec 0 d) as [|Hle]; [assumption|].
    rewrite (Z.pow_neg_r 2 (d - 1)) in H by lia.
    destruct (Z.eq_dec d 0) as [->|]; [simpl in H; lia|].
    rewrite (Z.pow_neg_r 2 d) in H by lia. lia. }
  destruct (Z.lt_trichotomy (Zdigits2 m) d) as [Hlt | [Heq | Hgt]]; [|assumption|].
  - assert (2 ^ Zdigits2 m <= 2 ^ (d - 1)) by (apply Z.pow_le_mono_r; lia). lia.
  - assert (2 ^ d <= 2 ^ (Zdigits2 m - 1)) by (apply Z.pow_le_mono_r; lia). lia.
Qed.

Lemma Zdigits2_le (m k : Z) : 0 < m < 2 ^ k -> Zdigits2 m <= k.
Proof.
  intros Hm. destruct (Zdigits2_bounds m) as (Hd & Hb); [lia|].
  destruct (Z_lt_le_dec k (Zdigits2 m)) as [Hlt|]; [|assumption].
  assert (0 <= k).
  { destruct (Z_lt_le_dec k 0) as [Hneg|]; [|assumption].
    rewrite (Z.pow_neg_r 2 k) in Hm by lia. lia. }
  assert (2 ^ k <= 2 ^ (Zdigits2 m - 1)) by (apply Z.pow_le_mono_r; lia). lia.
Qed.

(** ** Shifting right *)

Lemma shr_1_m (mrs : shr_record) :
  0 <= shr_m mrs -> shr_m (shr_1 mrs) = shr_m mrs / 2.
Proof.
  destruct mrs as [m r s]. cbn [shr_m]. intros Hm.
  destruct m as [|[p|p|]|p]; cbn; try lia.
  - rewrite Pos2Z.inj_xI.
    replace (2 * Zpos p + 1) with (1 + Zpos p * 2) by lia.
    now rewrite Z.div_add by lia.
  - rewrite Pos2Z.inj_xO, Z.mul_comm. now rewrite Z.div_mul by lia.
Qed.

Lemma shr_1_nonneg (mrs : shr_record) :
  0 <= shr_m mrs -> 0 <= shr_m (shr_1 mrs).
Proof. intros H. rewrite shr_1_m by assumption. now apply Z.div_pos. Qed.

Lemma iter_shr_1_m (p : positive) (mrs : shr_record) :
  0 <= shr_m mrs ->
  shr_m (iter_pos shr_1 p mrs) = shr_m mrs / 2 ^ Zpos p
  /\ 0 <= shr_m (iter_pos shr_1 p mrs).
Proof.
  revert mrs. induction p as [p IH | p IH |]; intros mrs Hm; cbn [iter_pos].
  - pose proof (shr_1_nonneg _ Hm) as H1.
    destruct (IH _ H1) as (E1 & H2). destruct (IH _ H2) as (E2 & H3).
    split; [|assumption]. rewrite E2, E1, shr_1_m by assumption.
    rewrite !Z.div_div by lia. f_equal.
    rewrite Pos2Z.inj_xI, <- Z.pow_add_r, <- (Z.pow_1_r 2) at 1 by lia.
    rewrite <- Z.pow_add_r by lia. f_equal. lia.
  - destruct (IH _ Hm) as (E1 & H2). destruct (IH _ H2) as (E2 & H3).
    split; [|assumption]. rewrite E2, E1.
    rewrite Z.div_div by lia. f_equal.
    rewrite Pos2Z.inj_xO, <- Z.pow_add_r by lia. f_equal. lia.
  - split; [now rewrite shr_1_m | now apply shr_1_nonneg].
Qed.

Lemma shr_1_exact (mrs : shr_record) :
  0 <= shr_m mrs -> exact_record mrs -> shr_m mrs mod 2 = 0 ->
  exact_record (shr_1 mrs).
Proof.
  destruct mrs as [m r s]. unfold exact_record. cbn [shr_m shr_r shr_s].
  intros Hm [-> ->] Hmod.
  destruct m as [|[p|p|]|p]; cbn; try lia; try (split; reflexivity).
  - rewrite Pos2Z.inj_xI in Hmod.
    replace (2 * Zpos p + 1) with (1 + Zpos p * 2) in Hmod by lia.
    rewrite Z.mod_add in Hmod by lia. discriminate.
  - discriminate.
Qed.

Lemma iter_shr_1_exact (p : positive) (mrs : shr_record) :
  0 <= shr_m mrs -> exact_record mrs -> shr_m mrs mod 2 ^ Zpos p = 0 ->
  exact_record (iter_pos shr_1 p mrs).
Proof.
  revert mrs. induction p as [p IH | p IH |]; intros mrs Hm Hex Hmod; cbn [iter_pos].
  - assert (Hdiv : (2 ^ Zpos p~1 | shr_m mrs)) by (apply Z.mod_divide; lia).
    destruct Hdiv as [k Hk].
    replace (Zpos p~1) with (1 + Zpos p + Zpos p) in Hk by lia.
    rewrite !Z.pow_add_r, Z.pow_1_r in Hk by lia.
    pose proof (shr_1_nonneg _ Hm) as H1.
    assert (E1 : shr_m (shr_1 mrs) = k * 2 ^ Zpos p * 2 ^ Zpos p).
    { rewrite shr_1_m, Hk by assumption.
      replace (k * (2 * 2 ^ Zpos p * 2 ^ Zpos p)) with (k * 2 ^ Zpos p * 2 ^ Zpos p * 2) by ring.
      apply Z.div_mul. lia. }
    assert (X1 : exact_record (shr_1 mrs)).
    { apply shr_1_exact; try assumption. rewrite Hk.
      replace (k * (2 * 2 ^ Zpos p * 2 ^ Zpos p)) with (k * 2 ^ Zpos p * 2 ^ Zpos p * 2) by ring.
      apply Z.mod_mul. lia. }
    destruct (iter_shr_1_m p _ H1) as (E2 & H2).
    apply IH; [assumption | | ].
    + apply IH; [assumption | assumption |]. rewrite E1. apply Z.mod_mul. lia.
    + rewrite E2, E1, Z.div_mul by lia. apply Z.mod_mul. lia.
  - assert (Hdiv : (2 ^ Zpos p~0 | shr_m mrs)) by (apply Z.mod_divide; lia).
    destruct Hdiv as [k Hk].
    replace (Zpos p~0) with (Zpos p + Zpos p) in Hk by lia.
    rewrite !Z.pow_add_r in Hk by lia.
    destruct (iter_shr_1_m p _ Hm) as (E2 & H2).
    apply IH; [assumption | | ].
    + apply IH; [assumption | assumption |]. rewrite Hk.
      replace (k * (2 ^ Zpos p * 2 ^ Zpos p)) with (k * 2 ^ Zpos p * 2 ^ Zpos p) by ring.
      apply Z.mod_mul. lia.
    + rewrite E2, Hk.
      replace (k * (2 ^ Zpos p * 2 ^ Zpos p)) with (k * 2 ^ Zpos p * 2 ^ Zpos p) by ring.
      rewrite Z.div_mul by lia. apply Z.mod_mul. lia.
  - apply shr_1_exact; assumption.
Qed.

Lemma loc_of_exact_record (mrs : shr_record) :
  exact_record mrs -> loc_of_shr_record mrs = loc_Exact.
Proof. destruct mrs as [m r s]. unfold exact_record. cbn. now intros [-> ->]. Qed.

Lemma shr_m_of_loc (m : Z) (l : location) : shr_m (shr_record_of_loc m l) = m.
Proof. now destruct l as [|[]]. Qed.

Lemma round_nearest_even_bounds (m : Z) (l : location) :
  round_nearest_even m l = m \/ round_nearest_even m l = m + 1.
Proof.
  destruct l as [|[]]; cbn; try (now left); try (now right).
  destruct (Z.even m); [now left | now right].
Qed.

(** ** Rounding a mantissa of at least 53 bits, in the normal range *)

Lemma fexp_normal (e : Z) : -1021 <= e -> SpecFloat.fexp prec emax e = e - 53.
Proof. unfold SpecFloat.fexp, emin, prec, emax. lia. Qed.

Lemma shr_fexp_normal (mx ex : Z) (lx : location) :
  0 < mx -> 53 <= Zdigits2 mx -> -1021 <= Zdigits2 mx + ex ->
  exists mrs,
    shr_fexp prec emax mx ex lx = (mrs, ex + (Zdigits2 mx - 53))
    /\ shr_m mrs = mx / 2 ^ (Zdigits2 mx - 53)
    /\ (lx = loc_Exact -> mx mod 2 ^ (Zdigits2 mx - 53) = 0 ->
        loc_of_shr_record mrs = loc_Exact).
Proof.
  intros Hm Hd He. unfold shr_fexp. rewrite fexp_normal by assumption.
  replace (Zdigits2 mx + ex - 53 - ex) with (Zdigits2 mx - 53) by lia.
  unfold shr. destruct (Zdigits2 mx - 53) as [|p|p] eqn:En; try lia.
  - exists (shr_record_of_loc mx lx).
    rewrite Z.add_0_r, shr_m_of_loc, Z.pow_0_r, Z.div_1_r.
    repeat split. now intros -> _.
  - exists (iter_pos shr_1 p (shr_record_of_loc mx lx)).
    destruct (iter_shr_1_m p (shr_record_of_loc mx lx)) as (E & _);
      [rewrite shr_m_of_loc; lia|].
    rewrite shr_m_of_loc in E. repeat split; [assumption|].
    intros -> Hmod. apply loc_of_exact_record, iter_shr_1_exact.
    + cbn. lia.
    + split; reflexivity.
    + exact Hmod.
Qed.

Lemma binary_round_aux_normal (mx ex : Z) (lx : location) :
  0 < mx -> 53 <= Zdigits2 mx ->
  -1021 <= Zdigits2 mx + ex -> Zdigits2 mx + ex <= 1023 ->
  exists m e,
    binary_round_aux prec emax false mx ex lx = S754_finite false m e
    /\ 2 ^ 52 <= Zpos m < 2 ^ 53
    /\ ((e = ex + (Zdigits2 mx - 53)
         /\ (Zpos m = mx / 2 ^ (Zdigits2 mx - 53)
             \/ Zpos m = mx / 2 ^ (Zdigits2 mx - 53) + 1))
        \/ (e = ex + (Zdigits2 mx - 53) + 1
            /\ Zpos m = 2 ^ 52
            /\ mx / 2 ^ (Zdigits2 mx - 53) + 1 = 2 ^ 53))
    /\ (lx = loc_Exact -> mx mod 2 ^ (Zdigits2 mx - 53) = 0 ->
        e = ex + (Zdigits2 mx - 53) /\ Zpos m = mx / 2 ^ (Zdigits2 mx - 53)).
Proof.
  intros Hm Hd Hlo Hhi.
  destruct (Zdigits2_bounds mx Hm) as (_ & Hb).
  set (n := Zdigits2 mx - 53) in *.
  assert (Hn : 0 <= n) by (unfold n; lia).
  assert (Hpn : 0 < 2 ^ n) by (apply Z.pow_pos_nonneg; lia).
  assert (Hm' : 2 ^ 52 <= mx / 2 ^ n < 2 ^ 53).
  { split.
    - apply Z.div_le_lower_bound; [assumption|].
      rewrite <- Z.pow_add_r by lia.
      replace (n + 52) with (Zdigits2 mx - 1) by (unfold n; lia). apply Hb.
    - apply Z.div_lt_upper_bound; [assumption|].
      rewrite <- Z.pow_add_r by lia.
      replace (n + 53) with (Zdigits2 mx) by (unfold n; lia). apply Hb. }
  unfold binary_round_aux.
  destruct (shr_fexp_normal mx ex lx Hm Hd Hlo) as (mrs & -> & Em & Hex).
  fold n in Em, Hex |- *. rewrite Em.
  set (m1 := round_nearest_even (mx / 2 ^ n) (loc_of_shr_record mrs)).
  assert (Hm1 : m1 = mx / 2 ^ n \/ m1 = mx / 2 ^ n + 1)
    by apply round_nearest_even_bounds.
  assert (Hd1 : (Zdigits2 m1 = 53 /\ m1 < 2 ^ 53) \/ (Zdigits2 m1 = 54 /\ m1 = 2 ^ 53)).
  { destruct (Z_lt_le_dec m1 (2 ^ 53)) as [Hlt | Hge].
    - left. split; [|assumption]. apply Zdigits2_unique; simpl Z.sub; lia.
    - right. assert (m1 = 2 ^ 53) by lia. split; [|assumption].
      apply Zdigits2_unique; [|lia]. subst m1. rewrite H. simpl Z.sub.
      split; [|reflexivity]. lia. }
  destruct (shr_fexp_normal m1 (ex + n) loc_Exact) as (mrs2 & -> & Em2 & _);
    [lia | lia | lia |].
  assert (Hm2 : 2 ^ 52 <= shr_m mrs2 < 2 ^ 53
                /\ ((Zdigits2 m1 = 53 /\ shr_m mrs2 = m1)
                    \/ (Zdigits2 m1 = 54 /\ shr_m mrs2 = 2 ^ 52 /\ m1 = 2 ^ 53))).
  { destruct Hd1 as [(E & Hlt) | (E & Heq)]; rewrite E in Em2.
    - simpl in Em2. rewrite Z.div_1_r in Em2. split; [lia|]. left. now split.
    - rewrite Heq in Em2. change (2 ^ 53 / 2 ^ (54 - 53)) with (2 ^ 52) in Em2.
      split; [lia|]. right. now repeat split. }
  destruct Hm2 as (Hr2 & Hc2).
  destruct (shr_m mrs2) as [|m|m] eqn:Es2; try lia.
  replace (ex + n + (Zdigits2 m1 - 53) <=? emax - prec) with true
    by (symmetry; apply Z.leb_le; unfold emax, prec, n; lia).
  exists m, (ex + n + (Zdigits2 m1 - 53)).
  split; [reflexivity|]. split; [assumption|]. split.
  - destruct Hc2 as [(E & Hs) | (E & Hs & Hs')]; rewrite E.
    + left. split; [lia|]. lia.
    + right. repeat split; lia.
  - intros Hl Hmod. specialize (Hex Hl Hmod).
    assert (m1 = mx / 2 ^ n) by (unfold m1; rewrite Hex; reflexivity).
    destruct Hc2 as [(E & Hs) | (E & Hs & Hs')]; [|lia].
    rewrite E. split; lia.
Qed.

(** The rounded value against the mantissa it was rounded from, both on
    the exponent [ex]: the error is at most one part in [2 ^ 52]. *)
Lemma binary_round_aux_error (mx ex : Z) (lx : location) :
  0 < mx -> 53 <= Zdigits2 mx ->
  -1021 <= Zdigits2 mx + ex -> Zdigits2 mx + ex <= 1023 ->
  exists m e,
    binary_round_aux prec emax false mx ex lx = S754_finite false m e
    /\ 2 ^ 52 <= Zpos m < 2 ^ 53
    /\ ex <= e <= ex + (Zdigits2 mx - 53) + 1
    /\ 2 ^ 52 * (Zpos m * 2 ^ (e - ex) - mx) <= mx
    /\ 2 ^ 52 * (mx - Zpos m * 2 ^ (e - ex)) <= mx.
Proof.
  intros Hm Hd Hlo Hhi.
  destruct (binary_round_aux_normal mx ex lx Hm Hd Hlo Hhi)
    as (m & e & E & Hc & Hcase & _).
  exists m, e. split; [assumption|]. split; [assumption|].
  assert (Hup : e <= ex + (Zdigits2 mx - 53) + 1) by lia.
  destruct (Zdigits2_bounds mx Hm) as (_ & Hb).
  set (n := Zdigits2 mx - 53) in *.
  assert (Hn : 0 <= n) by (unfold n; lia).
  assert (Hpn : 0 < 2 ^ n) by (apply Z.pow_pos_nonneg; lia).
  assert (Hlow : 2 ^ 52 * 2 ^ n <= mx).
  { rewrite <- Z.pow_add_r by lia.
    replace (52 + n) with (Zdigits2 mx - 1) by (unfold n; lia). apply Hb. }
  pose proof (Z.mul_div_le mx (2 ^ n) Hpn) as Hq1.
  pose proof (Z.mul_succ_div_gt mx (2 ^ n) Hpn) as Hq2.
  set (m' := mx / 2 ^ n) in *.
  assert (HV : m' * 2 ^ n <= Zpos m * 2 ^ (e - ex) <= (m' + 1) * 2 ^ n /\ ex <= e).
  { destruct Hcase as [(-> & Hmm) | (-> & Hmm & Hmm')].
    - replace (ex + n - ex) with n by lia. split; [|lia]. nia.
    - replace (ex + n + 1 - ex) with (n + 1) by lia.
      rewrite Z.pow_add_r, Z.pow_1_r by lia. split; [|lia]. nia. }
  destruct HV as (HV & He). split; [lia|]. nia.
Qed.

(** ** The three operations on positive integers and floats *)

Lemma iter_xO_shift (p d : positive) :
  Zpos (Pos.iter xO p d) = Zpos p * 2 ^ Zpos d.
Proof.
  induction d as [|d IH] using Pos.peano_ind.
  - simpl. lia.
  - rewrite Pos.iter_succ, Pos2Z.inj_xO, IH, Pos2Z.inj_succ, Z.pow_succ_r by lia.
    ring.
Qed.

(** [float(n)] is exact below [2 ^ 53]. *)
Lemma float_of_int_exact (n : Z) :
  1 <= n < 2 ^ 53 ->
  exists m e,
    float_of_int n = Ok (S754_finite false m e)
    /\ 2 ^ 52 <= Zpos m < 2 ^ 53
    /\ e <= 0
    /\ Zpos m = n * 2 ^ (- e).
Proof.
  intros Hn. destruct n as [|p|p]; try lia.
  pose proof (digits2_pos_bounds p) as Hb.
  set (d := Zpos (digits2_pos p)) in *.
  assert (Hd : 1 <= d <= 53).
  { split; [unfold d; lia|]. apply (Zdigits2_le (Zpos p)). lia. }
  unfold float_of_int, binary_normalize, binary_round. fold d.
  rewrite fexp_normal by lia. unfold shl_align.
  replace (d + 0 - 53 - 0) with (d - 53) by lia.
  destruct (d - 53) as [|k|k] eqn:Ek; try lia.
  - pose proof (binary_round_aux_normal (Zpos p) 0 loc_Exact) as H.
    change (Zdigits2 (Zpos p)) with d in H. rewrite Ek in H.
    destruct H as (m & e & -> & Hc & _ & Hex); try lia.
    destruct Hex as (-> & Hm); [reflexivity | apply Z.mod_1_r |].
    simpl in Hm. rewrite Z.div_1_r in Hm.
    exists m, (0 + 0). repeat split; try lia.
  - assert (Hmz : Zpos (Pos.iter xO p k) = Zpos p * 2 ^ (53 - d)).
    { rewrite iter_xO_shift. f_equal. f_equal. lia. }
    assert (Hpk : 0 < 2 ^ (53 - d)) by (apply Z.pow_pos_nonneg; lia).
    assert (Hdz : Zdigits2 (Zpos (Pos.iter xO p k)) = 53).
    { apply Zdigits2_unique; [|lia]. rewrite Hmz.
      replace (2 ^ (53 - 1)) with (2 ^ (d - 1) * 2 ^ (53 - d))
        by (rewrite <- Z.pow_add_r by lia; f_equal; lia).
      replace (2 ^ 53) with (2 ^ d * 2 ^ (53 - d))
        by (rewrite <- Z.pow_add_r by lia; f_equal; lia).
      nia. }
    pose proof (binary_round_aux_normal (Zpos (Pos.iter xO p k)) (d + 0 - 53)
                  loc_Exact) as H.
    rewrite Hdz in H. change (53 - 53) with 0 in H.
    destruct H as (m & e & -> & Hc & _ & Hex); try lia.
    destruct Hex as (-> & Hm); [reflexivity | apply Z.mod_1_r |].
    simpl in Hm. rewrite Z.div_1_r in Hm.
    exists m, (d + 0 - 53 + 0).
    repeat split; try lia.
    rewrite Hm, Hmz. f_equal. f_equal. lia.
Qed.

(** The quotient and exponent [int_truediv] rounds, for operands below
    [2 ^ 53]. *)
Lemma int_truediv_core (a b : Z) :
  1 <= a < 2 ^ 53 -> 1 <= b < 2 ^ 53 ->
  exists l,
    let s := 53 + Zdigits2 b - Zdigits2 a in
    let q := a * 2 ^ s / b in
    int_truediv a b
    = match binary_round_aux prec emax false q (- s) l with
      | S754_infinity _ => Raise OverflowError
      | f => Ok f
      end
    /\ 0 < s
    /\ 0 < q
    /\ 53 <= Zdigits2 q <= 54
    /\ ((a * 2 ^ s) mod b = 0 -> l = loc_Exact).
Proof.
  intros Ha Hb.
  destruct (Zdigits2_bounds a) as (Hda & Hba); [lia|].
  destruct (Zdigits2_bounds b) as (Hdb & Hbb); [lia|].
  assert (Hda' : Zdigits2 a <= 53) by (apply Zdigits2_le; lia).
  assert (Hdb' : Zdigits2 b <= 53) by (apply Zdigits2_le; lia).
  set (s := 53 + Zdigits2 b - Zdigits2 a).
  assert (Hs : 0 < s) by (unfold s; lia).
  assert (Hps : 0 < 2 ^ s) by (apply Z.pow_pos_nonneg; lia).
  (* the quotient has 53 or 54 bits *)
  assert (Hq : 2 ^ 52 <= a * 2 ^ s / b < 2 ^ 54).
  { split.
    - apply Z.div_le_lower_bound; [lia|].
      assert (b * 2 ^ 52 <= 2 ^ Zdigits2 b * 2 ^ 52) by nia.
      assert (2 ^ (Zdigits2 a - 1) * 2 ^ s <= a * 2 ^ s) by nia.
      rewrite <- Z.pow_add_r in * by lia.
      replace (Zdigits2 a - 1 + s) with (Zdigits2 b + 52) in * by (unfold s; lia).
      lia.
    - apply Z.div_lt_upper_bound; [lia|].
      assert (2 ^ (Zdigits2 b - 1) * 2 ^ 54 <= b * 2 ^ 54) by nia.
      assert (a * 2 ^ s < 2 ^ Zdigits2 a * 2 ^ s) by nia.
      rewrite <- Z.pow_add_r in * by lia.
      replace (Zdigits2 a + s) with (Zdigits2 b - 1 + 54) in * by (unfold s; lia).
      lia. }
  assert (Hdq : 53 <= Zdigits2 (a * 2 ^ s / b) <= 54).
  { destruct (Zdigits2_bounds (a * 2 ^ s / b)) as (Hdq & Hbq); [lia|].
    split.
    - destruct (Z_lt_le_dec (Zdigits2 (a * 2 ^ s / b)) 53) as [Hlt|]; [|assumption].
      assert (2 ^ Zdigits2 (a * 2 ^ s / b) <= 2 ^ 52) by (apply Z.pow_le_mono_r; lia).
      lia.
    - destruct (Z_lt_le_dec 54 (Zdigits2 (a * 2 ^ s / b))) as [Hlt|]; [|assumption].
      assert (2 ^ 54 <= 2 ^ (Zdigits2 (a * 2 ^ s / b) - 1))
        by (apply Z.pow_le_mono_r; lia).
      lia. }
  destruct a as [|pa|pa]; try lia. destruct b as [|pb|pb]; try lia.
  unfold int_truediv, SFdiv_core_binary. cbn [Z.abs Z.ltb Z.compare xorb].
  rewrite fexp_normal by lia.
  replace (Z.min (Zdigits2 (Zpos pa) + 0 - (Zdigits2 (Zpos pb) + 0) - 53) (0 - 0))
    with (- s) by (unfold s; lia).
  replace (0 - 0 - - s) with s by lia.
  destruct s as [|ps|ps] eqn:Es; try lia.
  rewrite Z.shiftl_mul_pow2 by lia.
  pose proof (Z.div_eucl_eq (Zpos pa * 2 ^ Zpos ps) (Zpos pb)) as Heq.
  unfold Z.modulo, Z.div in *.
  destruct (Z.div_eucl (Zpos pa * 2 ^ Zpos ps) (Zpos pb)) as [q r].
  exists (new_location (Zpos pb) r). cbv zeta.
  split; [reflexivity|]. split; [lia|]. split; [lia|]. split; [assumption|].
  intros ->. unfold new_location, new_location_even, new_location_odd.
  destruct (Z.even (Zpos pb)); reflexivity.
Qed.

End Rounding.

(** ** Floats as real numbers *)

Section Values.

Import PyFloat.
Local Open Scope R_scope.

Lemma bpow_pos (e : Z) : 0 < bpow e.
Proof. apply powerRZ_lt. lra. Qed.

Lemma bpow_add (a b : Z) : bpow (a + b) = bpow a * bpow b.
Proof. apply powerRZ_add. lra. Qed.

Lemma bpow_IZR (n : Z) : (0 <= n)%Z -> bpow n = IZR (2 ^ n).
Proof.
  intros Hn. unfold bpow. rewrite <- (Z2Nat.id n Hn) at 1 2.
  now rewrite <- pow_powerRZ, pow_IZR.
Qed.

Lemma bpow_inv (e : Z) : bpow e * bpow (- e) = 1.
Proof. rewrite <- bpow_add, Z.add_opp_diag_r. reflexivity. Qed.

Lemma bpow_le (a b : Z) : (a <= b)%Z -> bpow a <= bpow b.
Proof.
  intros H. replace b with (a + (b - a))%Z by lia.
  rewrite bpow_add, (bpow_IZR (b - a)) by lia.
  assert (1 <= IZR (2 ^ (b - a))).
  { apply IZR_le. assert (0 < 2 ^ (b - a))%Z by (apply Z.pow_pos_nonneg; lia). lia. }
  pose proof (bpow_pos a). nra.
Qed.

Lemma mantissa_shift (m e ex : Z) :
  (ex <= e)%Z -> IZR m * bpow e = IZR (m * 2 ^ (e - ex)) * bpow ex.
Proof.
  intros H. replace e with ((e - ex) + ex)%Z at 1 by lia.
  rewrite bpow_add, (bpow_IZR (e - ex)), mult_IZR by lia. ring.
Qed.

Lemma normal_in_finite (lo hi : Z) (x : spec_float) :
  normal_in lo hi x ->
  exists m e, x = S754_finite false m e
              /\ (2 ^ 52 <= Zpos m < 2 ^ 53)%Z /\ (lo <= e <= hi)%Z.
Proof.
  destruct x as [| | |[] m e]; try contradiction.
  intros H. now exists m, e.
Qed.

Lemma normal_in_value_pos (lo hi : Z) (x : spec_float) :
  normal_in lo hi x -> 0 < value x.
Proof.
  intros H. destruct (normal_in_finite _ _ _ H) as (m & e & -> & _). cbn.
  apply Rmult_lt_0_compat; [now apply IZR_lt | apply bpow_pos].
Qed.

(** The rounded value is within one part in [2 ^ 52] of the value rounded;
    [4503599627370496] is [2 ^ 52]. *)
Lemma round_value (mx ex : Z) (lx : location) :
  (0 < mx)%Z -> (53 <= Zdigits2 mx)%Z ->
  (-1021 <= Zdigits2 mx + ex)%Z -> (Zdigits2 mx + ex <= 1023)%Z ->
  exists f,
    binary_round_aux prec emax false mx ex lx = f
    /\ normal_in ex (ex + (Zdigits2 mx - 53) + 1) f
    /\ 4503599627370496 * value f <= 4503599627370497 * (IZR mx * bpow ex)
    /\ 4503599627370495 * (IZR mx * bpow ex) <= 4503599627370496 * value f.
Proof.
  intros Hm Hd Hlo Hhi.
  destruct (binary_round_aux_error mx ex lx Hm Hd Hlo Hhi)
    as (m & e & E & Hc & He & Hu & Hl).
  exists (S754_finite false m e). split; [assumption|]. split; [now split|].
  cbn [value]. rewrite (mantissa_shift _ e ex) by lia.
  set (V := (Zpos m * 2 ^ (e - ex))%Z) in *.
  change (2 ^ 52)%Z with 4503599627370496%Z in Hu, Hl.
  apply IZR_le in Hu, Hl. rewrite mult_IZR, minus_IZR in Hu, Hl.
  pose proof (bpow_pos ex) as Hp.
  assert (Hmx : 0 < IZR mx) by now apply IZR_lt.
  split.
  - replace (4503599627370496 * (IZR V * bpow ex))
      with ((4503599627370496 * IZR V) * bpow ex) by ring.
    replace (4503599627370497 * (IZR mx * bpow ex))
      with ((4503599627370497 * IZR mx) * bpow ex) by ring.
    apply Rmult_le_compat_r; lra.
  - replace (4503599627370496 * (IZR V * bpow ex))
      with ((4503599627370496 * IZR V) * bpow ex) by ring.
    replace (4503599627370495 * (IZR mx * bpow ex))
      with ((4503599627370495 * IZR mx) * bpow ex) by ring.
    apply Rmult_le_compat_r; lra.
Qed.

(** [k * x <= k' * y] multiplied by a non-negative [c]. *)
Lemma scale_le (k k' x y c : R) :
  0 <= c -> k * x <= k' * y -> k * (x * c) <= k' * (y * c).
Proof.
  intros Hc H. replace (k * (x * c)) with (k * x * c) by ring.
  replace (k' * (y * c)) with (k' * y * c) by ring.
  now apply Rmult_le_compat_r.
Qed.

(** ** The operations of [resize_image] on real numbers *)

Lemma float_of_int_value (n : Z) :
  (1 <= n < 2 ^ 53)%Z ->
  exists f,
    float_of_int n = Ok f /\ normal_in (-52) 0 f /\ value f = IZR n.
Proof.
  intros Hn. destruct (float_of_int_exact n Hn) as (m & e & E & Hc & He & Hm).
  exists (S754_finite false m e). split; [assumption|].
  assert (Hpe : (0 < 2 ^ (- e))%Z) by (apply Z.pow_pos_nonneg; lia).
  assert (Hlo : (-52 <= e)%Z).
  { destruct (Z_lt_le_dec e (-52)) as [Hlt|]; [|assumption].
    assert (2 ^ 53 <= 2 ^ (- e))%Z by (apply Z.pow_le_mono_r; lia). nia. }
  split; [split; [assumption | lia]|].
  cbn [value]. rewrite Hm, mult_IZR, <- (bpow_IZR (- e)) by lia.
  rewrite Rmult_assoc, (Rmult_comm (bpow (- e))), bpow_inv. ring.
Qed.

Lemma int_truediv_value (a b : Z) :
  (1 <= a < 2 ^ 53)%Z -> (1 <= b < 2 ^ 53)%Z ->
  exists f,
    int_truediv a b = Ok f
    /\ normal_in (-105) 1 f
    /\ 4503599627370496 * (value f * IZR b) <= 4503599627370497 * IZR a.
Proof.
  intros Ha Hb.
  destruct (int_truediv_core a b Ha Hb) as (l & E & Hs & Hq & Hdq & _).
  destruct (Zdigits2_bounds a) as (Hda & Hba); [lia|].
  destruct (Zdigits2_bounds b) as (Hdb & Hbb); [lia|].
  assert (Hda' : (Zdigits2 a <= 53)%Z) by (apply Zdigits2_le; lia).
  assert (Hdb' : (Zdigits2 b <= 53)%Z) by (apply Zdigits2_le; lia).
  set (s := (53 + Zdigits2 b - Zdigits2 a)%Z) in *.
  set (q := (a * 2 ^ s / b)%Z) in *.
  destruct (round_value q (- s) l) as (f & Ef & Hn & Hu & _); try lia.
  rewrite Ef in E.
  destruct (normal_in_finite _ _ _ Hn) as (m & e & -> & Hc & He).
  exists (S754_finite false m e). split; [exact E|].
  split; [split; [assumption | unfold s in *; lia]|].
  assert (Hqb : (q * b <= a * 2 ^ s)%Z).
  { unfold q. rewrite Z.mul_comm. apply Z.mul_div_le. lia. }
  apply IZR_le in Hqb. rewrite !mult_IZR, <- (bpow_IZR s) in Hqb by lia.
  assert (Hb0 : 0 < IZR b) by (apply IZR_lt; lia).
  pose proof (bpow_pos (- s)) as Hp.
  assert (Hx : IZR q * bpow (- s) * IZR b <= IZR a).
  { replace (IZR a) with (IZR a * bpow s * bpow (- s))
      by (rewrite Rmult_assoc, bpow_inv; ring).
    replace (IZR q * bpow (- s) * IZR b) with (IZR q * IZR b * bpow (- s)) by ring.
    apply Rmult_le_compat_r; lra. }
  replace (4503599627370496 * (value (S754_finite false m e) * IZR b))
    with ((4503599627370496 * value (S754_finite false m e)) * IZR b) by ring.
  apply Rle_trans with (4503599627370497 * (IZR q * bpow (- s)) * IZR b).
  - apply Rmult_le_compat_r; lra.
  - lra.
Qed.

Lemma product_digits (m1 m2 : positive) :
  (2 ^ 52 <= Zpos m1 < 2 ^ 53)%Z -> (2 ^ 52 <= Zpos m2 < 2 ^ 53)%Z ->
  (105 <= Zdigits2 (Zpos (m1 * m2)) <= 106)%Z.
Proof.
  intros H1 H2. destruct (Zdigits2_bounds (Zpos (m1 * m2))) as (Hd & Hb); [lia|].
  rewrite Pos2Z.inj_mul in *.
  assert (Hp : (2 ^ 104 <= Zpos m1 * Zpos m2 < 2 ^ 106)%Z).
  { change (2 ^ 104)%Z with (2 ^ 52 * 2 ^ 52)%Z.
    change (2 ^ 106)%Z with (2 ^ 53 * 2 ^ 53)%Z. nia. }
  split.
  - destruct (Z_lt_le_dec (Zdigits2 (Zpos m1 * Zpos m2)) 105) as [Hlt|]; [|assumption].
    assert (2 ^ Zdigits2 (Zpos m1 * Zpos m2) <= 2 ^ 104)%Z
      by (apply Z.pow_le_mono_r; lia).
    lia.
  - destruct (Z_lt_le_dec 106 (Zdigits2 (Zpos m1 * Zpos m2))) as [Hlt|]; [|assumption].
    assert (2 ^ 106 <= 2 ^ (Zdigits2 (Zpos m1 * Zpos m2) - 1))%Z
      by (apply Z.pow_le_mono_r; lia).
    lia.
Qed.

Lemma float_mul_value (x y : spec_float) :
  normal_in (-500) 400 x -> normal_in (-500) 400 y ->
  exists m e,
    float_mul x y = S754_finite false m e
    /\ 4503599627370496 * value (S754_finite false m e)
       <= 4503599627370497 * (value x * value y)
    /\ 4503599627370495 * (value x * value y)
       <= 4503599627370496 * value (S754_finite false m e).
Proof.
  intros Hx Hy.
  destruct (normal_in_finite _ _ _ Hx) as (m1 & e1 & -> & Hc1 & He1).
  destruct (normal_in_finite _ _ _ Hy) as (m2 & e2 & -> & Hc2 & He2).
  pose proof (product_digits m1 m2 Hc1 Hc2) as Hd.
  unfold float_mul, SFmul. cbn [xorb].
  destruct (round_value (Zpos (m1 * m2)) (e1 + e2) loc_Exact)
    as (f & Ef & Hn & Hu & Hl); try lia.
  rewrite Ef. destruct (normal_in_finite _ _ _ Hn) as (m & e & -> & _).
  exists m, e. split; [reflexivity|].
  replace (value (S754_finite false m1 e1) * value (S754_finite false m2 e2))
    with (IZR (Zpos (m1 * m2)) * bpow (e1 + e2)).
  - now split.
  - cbn [value]. rewrite Pos2Z.inj_mul, mult_IZR, bpow_add. ring.
Qed.

(** The comparison of two positive normal floats is that of their values. *)
Lemma SFltb_value (lo hi lo' hi' : Z) (x y : spec_float) :
  normal_in lo hi x -> normal_in lo' hi' y ->
  (SFltb x y = true -> value x < value y)
  /\ (SFltb x y = false -> value y <= value x).
Proof.
  intros Hx Hy.
  destruct (normal_in_finite _ _ _ Hx) as (m1 & e1 & -> & Hc1 & _).
  destruct (normal_in_finite _ _ _ Hy) as (m2 & e2 & -> & Hc2 & _).
  change (2 ^ 52)%Z with 4503599627370496%Z in *.
  change (2 ^ 53)%Z with 9007199254740992%Z in *.
  assert (H1 : 4503599627370496 <= IZR (Zpos m1) < 9007199254740992)
    by (split; [apply IZR_le | apply IZR_lt]; lia).
  assert (H2 : 4503599627370496 <= IZR (Zpos m2) < 9007199254740992)
    by (split; [apply IZR_le | apply IZR_lt]; lia).
  unfold SFltb, SFcompare. cbn [value].
  destruct (Z.compare_spec e1 e2) as [-> | Hlt | Hgt].
  - pose proof (bpow_pos e2) as Hp.
    fold (Pos.compare m1 m2).
    destruct (Pos.compare_spec m1 m2) as [-> | Hm | Hm].
    + split; [discriminate | intros _; lra].
    + split; [intros _ | discriminate].
      apply Rmult_lt_compat_r; [assumption | apply IZR_lt; lia].
    + split; [discriminate | intros _].
      apply Rmult_le_compat_r; [lra | apply IZR_le; lia].
  - split; [intros _ | discriminate].
    pose proof (bpow_pos e1) as Hp.
    assert (Hb : 2 * bpow e1 <= bpow e2).
    { replace (2 * bpow e1) with (bpow (e1 + 1))
        by (rewrite bpow_add; unfold bpow at 2; simpl; ring).
      apply bpow_le. lia. }
    nra.
  - split; [discriminate | intros _].
    pose proof (bpow_pos e2) as Hp.
    assert (Hb : 2 * bpow e2 <= bpow e1).
    { replace (2 * bpow e2) with (bpow (e2 + 1))
        by (rewrite bpow_add; unfold bpow at 2; simpl; ring).
      apply bpow_le. lia. }
    nra.
Qed.

(** [int] of a positive float is the integer part of its value. *)
Lemma int_of_float_value (m : positive) (e : Z) :
  exists n,
    int_of_float (S754_finite false m e) = Ok n
    /\ (0 <= n)%Z
    /\ IZR n <= value (S754_finite false m e) < IZR n + 1.
Proof.
  cbn [int_of_float value].
  destruct e as [|p|p].
  - exists (Zpos m * 2 ^ 0)%Z. split; [reflexivity|]. split; [lia|].
    simpl Z.pow. rewrite Z.mul_1_r. unfold bpow. simpl. lra.
  - exists (Zpos m * 2 ^ Zpos p)%Z. split; [reflexivity|].
    assert (0 < 2 ^ Zpos p)%Z by (apply Z.pow_pos_nonneg; lia).
    split; [lia|]. rewrite mult_IZR, <- bpow_IZR by lia. lra.
  - exists (Zpos m / 2 ^ Zpos p)%Z. split; [reflexivity|].
    assert (Hp : (0 < 2 ^ Zpos p)%Z) by (apply Z.pow_pos_nonneg; lia).
    split; [apply Z.div_pos; lia|].
    pose proof (Z.mul_div_le (Zpos m) _ Hp) as H1.
    pose proof (Z.mul_succ_div_gt (Zpos m) _ Hp) as H2.
    set (n := (Zpos m / 2 ^ Zpos p)%Z) in *.
    apply IZR_le in H1. apply IZR_lt in H2.
    rewrite mult_IZR, <- bpow_IZR in H1, H2 by lia.
    rewrite succ_IZR in H2.
    pose proof (bpow_inv (Zpos p)) as Hi. change (- Zpos p)%Z with (Zneg p) in Hi.
    pose proof (bpow_pos (Zneg p)) as Hq.
    pose proof (bpow_pos (Zpos p)) as Hq'.
    split.
    + replace (IZR n) with (bpow (Zpos p) * IZR n * bpow (Zneg p))
        by (rewrite (Rmult_comm (bpow (Zpos p))), Rmult_assoc, Hi; ring).
      apply Rmult_le_compat_r; lra.
    + replace (IZR n + 1) with (bpow (Zpos p) * (IZR n + 1) * bpow (Zneg p))
        by (rewrite (Rmult_comm (bpow (Zpos p))), Rmult_assoc, Hi; ring).
      apply Rmult_lt_compat_r; lra.
Qed.

End Values.

(** ** The scaled size *)

Section ScaledSize.

Import PyFloat.

Lemma normal_in_weaken (lo hi lo' hi' : Z) (x : spec_float) :
  lo' <= lo -> hi <= hi' -> normal_in lo hi x -> normal_in lo' hi' x.
Proof.
  intros Hlo Hhi. destruct x as [| | |[] m e]; try contradiction.
  cbn. lia.
Qed.

(** One axis: the source dimension [d] times a scale [s] that is at most
    the rounded quotient [a] of the target [t] by [d]. *)
Lemma scaled_dimension (d t : Z) (a s : spec_float) :
  1 <= d < 2 ^ 31 -> 1 <= t < 2 ^ 31 ->
  normal_in (-105) 1 s ->
  (4503599627370496 * (value a * IZR d) <= 4503599627370497 * IZR t)%R ->
  (value s <= value a)%R ->
  exists p n,
    int_mul_float d s = Ok p
    /\ int_of_float p = Ok n
    /\ 0 <= n <= t
    /\ (IZR n <= value p < IZR n + 1)%R
    /\ (4503599627370496 * value p <= 4503599627370497 * (IZR d * value s))%R
    /\ (4503599627370495 * (IZR d * value s) <= 4503599627370496 * value p)%R
    /\ (IZR d * value s < 4294967296)%R.
Proof.
  intros Hd Ht Hs Ha Hsa.
  destruct (float_of_int_value d) as (f & Ef & Hf & Vf); [lia|].
  destruct (float_mul_value f s) as (m & e & Em & Hu & Hl).
  { eapply normal_in_weaken; [| |exact Hf]; lia. }
  { eapply normal_in_weaken; [| |exact Hs]; lia. }
  destruct (int_of_float_value m e) as (n & En & Hn & Hv).
  exists (S754_finite false m e), n.
  unfold int_mul_float. rewrite Ef. cbn [rbind]. rewrite Em.
  split; [reflexivity|]. split; [exact En|].
  rewrite Vf in Hu, Hl.
  assert (Hd0 : (1 <= IZR d)%R) by (apply IZR_le; lia).
  assert (Ht0 : (1 <= IZR t < 2147483648)%R).
  { change 2147483648%R with (IZR (2 ^ 31)). split; [apply IZR_le | apply IZR_lt]; lia. }
  assert (Hxy : (IZR d * value s <= value a * IZR d)%R).
  { rewrite (Rmult_comm (value a)). apply Rmult_le_compat_l; lra. }
  assert (Hlt : (value (S754_finite false m e) < IZR t + 1)%R) by lra.
  split.
  - split; [assumption|].
    assert (IZR n < IZR (t + 1))%R by (rewrite plus_IZR; lra).
    apply lt_IZR in H. lia.
  - repeat split; try lra.
Qed.

(** The scale: the smaller of the two rounded quotients. *)
Lemma aspect_ratio_value (sw sh tw th : Z) :
  1 <= sw < 2 ^ 31 -> 1 <= sh < 2 ^ 31 ->
  1 <= tw < 2 ^ 31 -> 1 <= th < 2 ^ 31 ->
  exists a b,
    int_truediv tw sw = Ok a
    /\ int_truediv th sh = Ok b
    /\ normal_in (-105) 1 (py_min a b)
    /\ (4503599627370496 * (value a * IZR sw) <= 4503599627370497 * IZR tw)%R
    /\ (4503599627370496 * (value b * IZR sh) <= 4503599627370497 * IZR th)%R
    /\ (value (py_min a b) <= value a)%R
    /\ (value (py_min a b) <= value b)%R.
Proof.
  intros Hsw Hsh Htw Hth.
  destruct (int_truediv_value tw sw) as (a & Ea & Na & Ha); [lia | lia |].
  destruct (int_truediv_value th sh) as (b & Eb & Nb & Hb); [lia | lia |].
  exists a, b. split; [assumption|]. split; [assumption|].
  destruct (SFltb_value _ _ _ _ b a Nb Na) as (Hlt & Hge).
  unfold py_min. destruct (SFltb b a).
  - specialize (Hlt eq_refl). repeat split; try assumption; lra.
  - specialize (Hge eq_refl). repeat split; try assumption; lra.
Qed.

(** The scaled size exists, fits the box, and keeps the aspect ratio up to
    the two truncations. *)
Lemma scaled_size_spec (sw sh tw th : Z) :
  1 <= sw < 2 ^ 31 -> 1 <= sh < 2 ^ 31 ->
  1 <= tw < 2 ^ 31 -> 1 <= th < 2 ^ 31 ->
  exists a b pw ph new_width new_height,
    int_truediv tw sw = Ok a
    /\ int_truediv th sh = Ok b
    /\ int_mul_float sw (py_min a b) = Ok pw
    /\ int_of_float pw = Ok new_width
    /\ int_mul_float sh (py_min a b) = Ok ph
    /\ int_of_float ph = Ok new_height
    /\ scaled_size sw sh tw th = Ok (new_width, new_height)
    /\ 0 <= new_width <= tw
    /\ 0 <= new_height <= th
    /\ Z.abs (new_width * sh - new_height * sw) < sw + sh.
Proof.
  intros Hsw Hsh Htw Hth.
  destruct (aspect_ratio_value sw sh tw th Hsw Hsh Htw Hth)
    as (a & b & Ea & Eb & Ns & Ha & Hb & Hsa & Hsb).
  destruct (scaled_dimension sw tw a (py_min a b) Hsw Htw Ns Ha Hsa)
    as (pw & nw & Epw & Enw & Hnw & Vw & Uw & Lw & Bw).
  destruct (scaled_dimension sh th b (py_min a b) Hsh Hth Ns Hb Hsb)
    as (ph & nh & Eph & Enh & Hnh & Vh & Uh & Lh & Bh).
  exists a, b, pw, ph, nw, nh.
  repeat (split; [assumption|]).
  split.
  { unfold scaled_size. rewrite Ea, Eb. cbn [rbind].
    rewrite Epw. cbn [rbind]. rewrite Enw. cbn [rbind].
    rewrite Eph. cbn [rbind]. rewrite Enh. reflexivity. }
  split; [assumption|]. split; [assumption|].
  pose proof (normal_in_value_pos _ _ _ Ns) as Hs0.
  set (S := value (py_min a b)) in *.
  assert (Hw0 : (1 <= IZR sw < 2147483648)%R).
  { change 2147483648%R with (IZR (2 ^ 31)). split; [apply IZR_le | apply IZR_lt]; lia. }
  assert (Hh0 : (1 <= IZR sh < 2147483648)%R).
  { change 2147483648%R with (IZR (2 ^ 31)). split; [apply IZR_le | apply IZR_lt]; lia. }
  assert (Hnw0 : (0 <= IZR nw)%R) by (apply IZR_le; lia).
  assert (Hnh0 : (0 <= IZR nh)%R) by (apply IZR_le; lia).
  set (T := (IZR sw * IZR sh * S)%R).
  assert (HT : (0 <= T < 4294967296 * IZR sh)%R).
  { unfold T. split.
    - apply Rmult_le_pos; [apply Rmult_le_pos|]; lra.
    - replace (IZR sw * IZR sh * S)%R with (IZR sw * S * IZR sh)%R by ring.
      apply Rmult_lt_compat_r; lra. }
  assert (HT' : (T < 4294967296 * IZR sw)%R).
  { unfold T. replace (IZR sw * IZR sh * S)%R with (IZR sh * S * IZR sw)%R by ring.
    apply Rmult_lt_compat_r; lra. }
  (* the four products, each against [T] *)
  assert (Tw : (IZR sw * S * IZR sh = T)%R) by (unfold T; ring).
  assert (Th : (IZR sh * S * IZR sw = T)%R) by (unfold T; ring).
  assert (P1 : (4503599627370496 * (value pw * IZR sh) <= 4503599627370497 * T)%R)
    by (rewrite <- Tw; apply scale_le; lra).
  assert (P2 : (4503599627370495 * T <= 4503599627370496 * (value pw * IZR sh))%R)
    by (rewrite <- Tw; apply scale_le; lra).
  assert (P3 : (4503599627370496 * (value ph * IZR sw) <= 4503599627370497 * T)%R)
    by (rewrite <- Th; apply scale_le; lra).
  assert (P4 : (4503599627370495 * T <= 4503599627370496 * (value ph * IZR sw))%R)
    by (rewrite <- Th; apply scale_le; lra).
  (* the truncations against the products *)
  assert (Q1 : (IZR nw * IZR sh <= value pw * IZR sh)%R)
    by (apply Rmult_le_compat_r; lra).
  assert (Q2 : (value pw * IZR sh < (IZR nw + 1) * IZR sh)%R)
    by (apply Rmult_lt_compat_r; lra).
  assert (Q3 : (IZR nh * IZR sw <= value ph * IZR sw)%R)
    by (apply Rmult_le_compat_r; lra).
  assert (Q4 : (value ph * IZR sw < (IZR nh + 1) * IZR sw)%R)
    by (apply Rmult_lt_compat_r; lra).
  assert (R1 : (IZR (nw * sh - nh * sw) < IZR (sw + sh))%R).
  { rewrite minus_IZR, !mult_IZR, plus_IZR. lra. }
  assert (R2 : (IZR (nh * sw - nw * sh) < IZR (sw + sh))%R).
  { rewrite minus_IZR, !mult_IZR, plus_IZR. lra. }
  apply lt_IZR in R1, R2. lia.
Qed.

(** ** The padding *)

Lemma pow2_split (a b : Z) :
  0 <= a -> 0 <= b -> 2 ^ (a + b + 1) = 2 ^ a * 2 ^ b * 2.
Proof. intros Ha Hb. now rewrite !Z.pow_add_r, Z.pow_1_r by lia. Qed.

(** [int((target - scaled) / 2)] is the integer half of the gap. *)
Lemma padding_half (target scaled : Z) :
  0 <= target - scaled < 2 ^ 53 ->
  padding target scaled = Ok ((target - scaled) / 2).
Proof.
  intros Hg. unfold padding. set (g := target - scaled) in *.
  destruct (Z.eq_dec g 0) as [-> | Hne]; [reflexivity|].
  destruct (int_truediv_core g 2) as (l & E & Hs & Hq & Hdq & Hl); [lia | lia |].
  destruct (Zdigits2_bounds g) as (Hd & Hb); [lia|].
  assert (Hd' : Zdigits2 g <= 53) by (apply Zdigits2_le; lia).
  change (Zdigits2 2) with 2 in *.
  set (s := 53 + 2 - Zdigits2 g) in *.
  assert (Hs2 : 2 ^ s = 2 ^ (s - 2) * 2 * 2).
  { replace s with (s - 2 + 1 + 1) at 1 by lia.
    rewrite !Z.pow_add_r by (unfold s; lia). reflexivity. }
  assert (Hp : 0 < 2 ^ (s - 2)) by (apply Z.pow_pos_nonneg; unfold s; lia).
  assert (Eq : g * 2 ^ s / 2 = g * 2 ^ (s - 2) * 2).
  { rewrite Hs2. replace (g * (2 ^ (s - 2) * 2 * 2)) with (g * 2 ^ (s - 2) * 2 * 2) by ring.
    apply Z.div_mul. lia. }
  rewrite Eq in *.
  assert (Hdq54 : Zdigits2 (g * 2 ^ (s - 2) * 2) = 54).
  { apply Zdigits2_unique; [|lia].
    pose proof (pow2_split (Zdigits2 g - 1) (s - 2)) as H53.
    pose proof (pow2_split (Zdigits2 g) (s - 2)) as H54.
    replace (Zdigits2 g - 1 + (s - 2) + 1) with (54 - 1) in H53 by (unfold s; lia).
    replace (Zdigits2 g + (s - 2) + 1) with 54 in H54 by (unfold s; lia).
    rewrite H53, H54 by (unfold s; lia). nia. }
  assert (Hlx : l = loc_Exact).
  { apply Hl. rewrite Hs2.
    replace (g * (2 ^ (s - 2) * 2 * 2)) with (g * 2 ^ (s - 2) * 2 * 2) by ring.
    apply Z.mod_mul. lia. }
  subst l.
  destruct (binary_round_aux_normal (g * 2 ^ (s - 2) * 2) (- s) loc_Exact)
    as (m & e & Er & Hc & _ & Hex); try lia.
  rewrite Hdq54 in Hex. change (54 - 53) with 1 in Hex.
  destruct Hex as (He & Hm); [reflexivity | |].
  { rewrite Z.pow_1_r. apply Z.mod_mul. lia. }
  rewrite Z.pow_1_r, Z.div_mul in Hm by lia.
  rewrite E, Er. cbn [rbind int_of_float].
  destruct e as [|pe|pe]; try (unfold s in He; lia).
  f_equal. rewrite Hm.
  replace (Zpos pe) with (s - 1) by lia.
  replace (s - 1) with (s - 2 + 1) by lia.
  rewrite Z.pow_add_r, Z.pow_1_r by (unfold s; lia).
  rewrite (Z.mul_comm g), Z.div_mul_cancel_l by lia. reflexivity.
Qed.

End ScaledSize.

(** * Strings, paths and discovery *)

Section Strings.

Import PyStr.

Lemma str_eqb_eq (a b : str) : str_eqb a b = true <-> a = b.
Proof.
  revert b. induction a as [|x a IH]; intros [|y b]; simpl; try (split; congruence).
  rewrite andb_true_iff, Ascii.eqb_eq, IH. split.
  - now intros [-> ->].
  - now intros [= -> ->].
Qed.

Lemma endswith_iff (s p : str) : endswith s p = true <-> exists pre, s = pre ++ p.
Proof.
  unfold endswith. rewrite andb_true_iff, Nat.leb_le, str_eqb_eq. split.
  - intros [_ H]. exists (firstn (List.length s - List.length p) s).
    pose proof (firstn_skipn (List.length s - List.length p) s) as F.
    rewrite H in F. now symmetry.
  - intros [pre ->]. rewrite length_app. split; [lia|].
    replace (List.length pre + List.length p - List.length p)%nat
      with (List.length pre) by lia.
    rewrite skipn_app, skipn_all, Nat.sub_diag. reflexivity.
Qed.

Lemma endswith_false_last (s : str) (c : ascii) :
  endswith (s ++ [c]) [OsPath.sep] = false -> c <> OsPath.sep.
Proof.
  intros H ->. enough (endswith (s ++ [OsPath.sep]) [OsPath.sep] = true) by congruence.
  apply endswith_iff. now exists s.
Qed.

Lemma ascii_lower_dot (c : ascii) : ascii_lower c = "."%char <-> c = "."%char.
Proof.
  destruct c as [[] [] [] [] [] [] [] []]; vm_compute; split; congruence.
Qed.

Lemma lower_app (a b : str) : lower (a ++ b) = lower a ++ lower b.
Proof. apply map_app. Qed.

Lemma lower_no_dot (e : str) : ~ In "."%char (lower e) -> ~ In "."%char e.
Proof.
  intros H Hin. apply H. unfold lower. apply in_map_iff.
  exists "."%char. split; [reflexivity | assumption].
Qed.

(** ** The extension of a name *)

Lemma extension_None (s : str) : extension s = None <-> ~ In "."%char s.
Proof.
  induction s as [|c s IH]; simpl; [tauto|].
  destruct (extension s) as [e|].
  - split; [discriminate|]. intros H. exfalso.
    assert (~ In "."%char s) by tauto. apply IH in H0. discriminate.
  - destruct (Ascii.eqb c "."%char) eqn:E.
    + apply Ascii.eqb_eq in E. split; [discriminate | tauto].
    + apply Ascii.eqb_neq in E. split; [|reflexivity].
      intros _ [H|H]; [congruence|]. now apply IH in H.
Qed.

Lemma extension_Some (s e : str) :
  extension s = Some e <-> exists pre, s = pre ++ "."%char :: e /\ ~ In "."%char e.
Proof.
  revert e. induction s as [|c s IH]; intros e; simpl.
  - split; [discriminate|]. intros (pre & H & _). now destruct pre.
  - destruct (extension s) as [e'|] eqn:Es.
    + split.
      * intros [= <-]. destruct (proj1 (IH e') eq_refl) as (pre & -> & Hno).
        now exists (c :: pre).
      * intros (pre & H & Hno). destruct pre as [|c' pre]; simpl in H.
        -- injection H as H1 H2. subst s.
           apply extension_None in Hno. congruence.
        -- injection H as H1 H2. apply IH. now exists pre.
    + pose proof (proj1 (extension_None s) Es) as Hs.
      destruct (Ascii.eqb c "."%char) eqn:E.
      * apply Ascii.eqb_eq in E. subst c. split.
        -- intros [= <-]. now exists [].
        -- intros (pre & H & Hno). destruct pre as [|c' pre]; simpl in H.
           ++ injection H as H2. now subst s.
           ++ injection H as H1 H2. exfalso. apply Hs. subst s. apply in_elt.
      * apply Ascii.eqb_neq in E. split; [discriminate|].
        intros (pre & H & Hno). destruct pre as [|c' pre]; simpl in H.
        -- injection H as H1 H2. congruence.
        -- injection H as H1 H2. exfalso. apply Hs. subst s. apply in_elt.
Qed.

(** A lower-cased name ends in a dot and a dot-free [x] exactly when its
    extension lowers to [x]. *)
Lemma endswith_dot_extension (name x : str) :
  ~ In "."%char x ->
  endswith (lower name) ("."%char :: x) = true
  <-> exists e, extension name = Some e /\ lower e = x.
Proof.
  intros Hx. rewrite endswith_iff. split.
  - intros [pre H]. unfold lower in H.
    apply map_eq_app in H. destruct H as (pre' & rest & -> & _ & H).
    apply map_eq_cons in H. destruct H as (c & e & -> & Hc & He).
    apply (proj1 (ascii_lower_dot c)) in Hc. subst c. exists e. split; [|exact He].
    apply extension_Some. exists pre'. split; [reflexivity|].
    apply lower_no_dot. unfold lower. now rewrite He.
  - intros (e & He & Hl). apply extension_Some in He.
    destruct He as (pre & -> & _). exists (lower pre).
    rewrite lower_app. simpl. now rewrite Hl.
Qed.

End Strings.

Lemma image_suffixes_extensions :
  image_suffixes = map (cons "."%char) image_extensions.
Proof. reflexivity. Qed.

Lemma image_extensions_no_dot (x : str) :
  In x image_extensions -> ~ In "."%char x.
Proof.
  unfold image_extensions. simpl.
  intros [<-|[<-|[<-|[<-|[]]]]]; simpl; intuition discriminate.
Qed.

(** The suffix test of the program is the test on extensions. *)
Lemma is_image_file_extension (name : str) :
  is_image_file name = has_image_extension name.
Proof.
  apply eq_true_iff_eq.
  unfold is_image_file, PyStr.endswith_any, has_image_extension.
  rewrite image_suffixes_extensions, existsb_exists. split.
  - intros (s & Hs & He). apply in_map_iff in Hs. destruct Hs as (x & <- & Hx).
    apply endswith_dot_extension in He; [|now apply image_extensions_no_dot].
    destruct He as (e & -> & Hl). apply existsb_exists. exists x.
    split; [assumption|]. now apply str_eqb_eq.
  - destruct (extension name) as [e|] eqn:E; [|discriminate].
    intros H. apply existsb_exists in H. destruct H as (x & Hx & Hl).
    apply str_eqb_eq in Hl. exists ("."%char :: x). split.
    + apply in_map_iff. now exists x.
    + apply endswith_dot_extension; [now apply image_extensions_no_dot|].
      now exists e.
Qed.

(** ** Comparison without regard to case *)

(** On the letters of the four extensions, lower-casing and comparing is
    comparing without regard to case. *)
Lemma same_letter_lower (c y : ascii) :
  In y (lit "pngjeif") ->
  same_letter c y = Ascii.eqb (PyStr.ascii_lower c) y.
Proof.
  intros H. cbn in H.
  destruct H as [<-|[<-|[<-|[<-|[<-|[<-|[<-|[]]]]]]]];
    destruct c as [[] [] [] [] [] [] [] []]; vm_compute; reflexivity.
Qed.

Lemma caseless_eqb_lower (e x : str) :
  incl x (lit "pngjeif") ->
  caseless_eqb e x = PyStr.str_eqb (PyStr.lower e) x.
Proof.
  revert x. induction e as [|c e IH]; intros [|y x] Hx; try reflexivity.
  cbn [caseless_eqb PyStr.lower map PyStr.str_eqb].
  rewrite same_letter_lower by (apply Hx; now left).
  f_equal. apply IH. intros z Hz. apply Hx. now right.
Qed.

Lemma image_extensions_letters (x : str) :
  In x image_extensions -> incl x (lit "pngjeif").
Proof.
  unfold image_extensions. cbn [In].
  intros [<-|[<-|[<-|[<-|[]]]]]; intros c Hc; cbn in Hc |- *; intuition.
Qed.

(** The test without regard to case is the test on the lower-cased
    extension. *)
Lemma extension_is_image_lower (name : str) :
  extension_is_image name = has_image_extension name.
Proof.
  unfold extension_is_image, has_image_extension.
  destruct (extension name) as [e|]; [|reflexivity].
  assert (H : forall l, incl l image_extensions ->
                        existsb (caseless_eqb e) l
                        = existsb (PyStr.str_eqb (PyStr.lower e)) l).
  { induction l as [|x l IH]; intros Hl; [reflexivity|]. cbn [existsb].
    rewrite caseless_eqb_lower
      by (apply image_extensions_letters, Hl; now left).
    f_equal. apply IH. intros z Hz. apply Hl. now right. }
  apply H, incl_refl.
Qed.

(** ** Discovery *)

(** Induction on entries, with the property on every child of a directory. *)
Lemma entry_forall_ind (P : entry -> Prop) :
  (forall name, P (File name)) ->
  (forall name walkable children,
      Forall P children -> P (Dir name walkable children)) ->
  forall e, P e.
Proof.
  intros HF HD. fix IH 1. intros [name | name walkable children].
  - apply HF.
  - apply HD.
    exact ((fix all (cs : list entry) : Forall P cs :=
              match cs with
              | [] => Forall_nil P
              | c :: cs' => Forall_cons c (IH c) (all cs')
              end) children).
Qed.

Lemma get_image_files_walk (w : world) (path : str) :
  get_image_files w path = flat_map image_paths (os_walk w path).
Proof. reflexivity. Qed.

Lemma in_nondirs (es : list entry) (name : str) :
  In name (nondirs es) <-> In (File name) es.
Proof.
  unfold nondirs. rewrite in_flat_map. split.
  - intros ([n | n b cs] & Hin & H); simpl in H; [|contradiction].
    destruct H as [-> | []]. assumption.
  - intros H. exists (File name). split; [assumption | now left].
Qed.

(** The image paths found in and below a directory of content [es]. *)
Lemma listing_spec (top : str) (es : list entry) (p : str) :
  Forall entry_spec es ->
  In p (flat_map image_paths
          ((top, dirs es, nondirs es) :: flat_map (walk_entry top) es))
  <-> exists name, file_under top es p name /\ is_image_file name = true.
Proof.
  intros Hall. rewrite Forall_forall in Hall. cbn [flat_map image_paths].
  rewrite in_app_iff, in_map_iff. split.
  - intros [(name & <- & Hin) | Hin].
    + apply filter_In in Hin. destruct Hin as [Hin Himg].
      exists name. split; [|assumption].
      apply file_here. now apply in_nondirs.
    + apply in_flat_map in Hin. destruct Hin as (triple & Ht & Hp).
      apply in_flat_map in Ht. destruct Ht as (e & He & Ht).
      assert (Hpe : In p (flat_map image_paths (walk_entry top e))).
      { apply in_flat_map. now exists triple. }
      apply (Hall e He) in Hpe. destruct Hpe as (d & cs & name & -> & Hu & Himg).
      exists name. split; [|assumption]. now apply (file_below top es d cs).
  - intros (name & Hu & Himg). inversion Hu as [? ? ? Hin | ? ? d cs ? ? Hin Hb]; subst.
    + left. exists name. split; [reflexivity|].
      apply filter_In. split; [now apply in_nondirs | assumption].
    + right.
      assert (Hpe : In p (flat_map image_paths (walk_entry top (Dir d true cs)))).
      { apply (Hall _ Hin). now exists d, cs, name. }
      apply in_flat_map in Hpe. destruct Hpe as (triple & Ht & Hp).
      apply in_flat_map. exists triple. split; [|assumption].
      apply in_flat_map. now exists (Dir d true cs).
Qed.

Lemma entry_spec_all (e : entry) : entry_spec e.
Proof.
  induction e as [name | name walkable children IH] using entry_forall_ind;
    intros top p.
  - simpl. split; [contradiction|]. now intros (d & cs & n & H & _).
  - destruct walkable.
    + cbn [walk_entry]. cbv zeta. rewrite (listing_spec _ _ _ IH). split.
      * intros (n & Hu & Himg). now exists name, children, n.
      * intros (d & cs & n & [= <- <-] & Hu & Himg). now exists n.
    + simpl. split; [contradiction|]. now intros (d & cs & n & [=] & _).
Qed.

(** C4, as amended.  A path is returned by discovery exactly when the input
    path can be listed and the path is the full path of a file, in that
    directory or in a directory below it that the walk enters, whose
    extension is, without regard to case, one of png, jpg, jpeg, gif; files
    with another extension, or with none, are not returned, and neither are
    files below a directory the walk does not enter.  Discovery does not
    consult the decoder: it returns the same paths when no file can be
    decoded. *)
Theorem discovery_is_image_files_under_path (w : world) (path : str) :
  (forall p,
      In p (get_image_files w path)
      <-> exists es name,
            scandir w path = Some es
            /\ file_under path es p name
            /\ extension_is_image name = true)
  /\ get_image_files w path
     = get_image_files {| scandir := scandir w; imread := fun _ => None |} path.
Proof.
  split; [|reflexivity].
  intros p. rewrite get_image_files_walk. unfold os_walk.
  destruct (scandir w path) as [es|].
  - rewrite listing_spec.
    + split.
      * intros (name & Hu & Himg). exists es, name.
        now rewrite extension_is_image_lower, <- is_image_file_extension.
      * intros (es' & name & [= <-] & Hu & Himg). exists name.
        now rewrite is_image_file_extension, <- extension_is_image_lower.
    + apply Forall_forall. intros e _. apply entry_spec_all.
  - simpl. split; [contradiction|]. now intros (es & name & [=] & _).
Qed.

Lemma discovery_is_image_files_under_path_witness :
  In (lit "/data/in/more/b.JPG") (get_image_files three_pictures in_dir)
  /\ In (lit "/data/in/a.jpg") (get_image_files three_pictures in_dir).
Proof.
  split.
  - apply (proj1 (discovery_is_image_files_under_path three_pictures in_dir)).
    eexists. exists (lit "b.JPG"). split; [reflexivity|]. split; [|reflexivity].
    apply (file_below _ _ (lit "more") [File (lit "b.JPG")]);
      [right; right; now left|].
    exact (file_here (lit "/data/in/more") [File (lit "b.JPG")] (lit "b.JPG")
             (or_introl eq_refl)).
  - apply (proj1 (discovery_is_image_files_under_path three_pictures in_dir)).
    exists [File (lit "a.jpg"); File (lit "notes.txt");
            Dir (lit "more") true [File (lit "b.JPG")]; File (lit "c.jpeg")],
      (lit "a.jpg").
    split; [reflexivity|]. split; [|reflexivity].
    exact (file_here (lit "/data/in")
             [File (lit "a.jpg"); File (lit "notes.txt");
              Dir (lit "more") true [File (lit "b.JPG")]; File (lit "c.jpeg")]
             (lit "a.jpg") (or_introl eq_refl)).
Defined.

(** C4, as stated, fails on a picture below a symbolic link to a directory:
    the file is under a subdirectory of the path and has the extension
    png, but the walk does not enter the link and discovery does not
    return the file. *)
Lemma file_below_link_is_not_discovered :
  scandir linked_folder in_dir
  = Some [File (lit "a.png"); Dir (lit "link") false [File (lit "hidden.png")]]
  /\ file_in_tree in_dir
       [File (lit "a.png"); Dir (lit "link") false [File (lit "hidden.png")]]
       (lit "/data/in/link/hidden.png") (lit "hidden.png")
  /\ extension_is_image (lit "hidden.png") = true
  /\ get_image_files linked_folder in_dir = [lit "/data/in/a.png"]
  /\ ~ In (lit "/data/in/link/hidden.png") (get_image_files linked_folder in_dir).
Proof.
  split; [reflexivity|]. split.
  - apply (in_tree_below _ _ (lit "link") false [File (lit "hidden.png")]);
      [right; now left|].
    exact (in_tree_here (lit "/data/in/link") [File (lit "hidden.png")]
             (lit "hidden.png") (or_introl eq_refl)).
  - split; [reflexivity|]. split; [reflexivity|].
    cbn. intros [H|[]]. discriminate.
Qed.

(** ** Paths *)

Section Paths.

Import PyStr OsPath.

Lemma startswith_nil (s : str) : startswith s [] = true.
Proof. now destruct s. Qed.

Lemma startswith_sep_app (n s : str) :
  startswith n [sep] = false ->
  startswith s [sep] = false ->
  startswith (n ++ s) [sep] = false.
Proof.
  destruct n as [|c n]; simpl; [now intros _|].
  rewrite !startswith_nil. now intros H _.
Qed.

Lemma join_plain (d n : str) :
  d <> [] ->
  endswith d [sep] = false ->
  startswith n [sep] = false ->
  join d n = d ++ sep :: n.
Proof.
  intros Hd He Hn. unfold join. rewrite Hn, He.
  destruct d; [congruence | reflexivity].
Qed.

Lemma head_to_last_sep_no_sep (b : str) :
  ~ In sep b -> head_to_last_sep b = [].
Proof.
  induction b as [|c b IH]; [reflexivity|]. intros H. simpl.
  rewrite IH by (intros Hin; apply H; now right).
  unfold is_sep. destruct (Ascii.eqb c sep) eqn:E; [|reflexivity].
  apply Ascii.eqb_eq in E. exfalso. apply H. now left.
Qed.

Lemma head_to_last_sep_app (a b : str) :
  ~ In sep b -> head_to_last_sep (a ++ sep :: b) = a ++ [sep].
Proof.
  intros Hb. induction a as [|c a IH]; simpl.
  - rewrite head_to_last_sep_no_sep by assumption. reflexivity.
  - rewrite IH. destruct (is_sep c); [reflexivity|].
    destruct a; reflexivity.
Qed.

Lemma rstrip_sep_last (a : str) (c : ascii) :
  c <> sep -> rstrip_sep (a ++ [c]) = a ++ [c].
Proof.
  intros Hc. induction a as [|x a IH]; simpl.
  - unfold is_sep. destruct (Ascii.eqb c sep) eqn:E; [|reflexivity].
    apply Ascii.eqb_eq in E. congruence.
  - rewrite IH. destruct a; reflexivity.
Qed.

Lemma rstrip_sep_app_sep (a : str) (c : ascii) :
  c <> sep -> rstrip_sep ((a ++ [c]) ++ [sep]) = a ++ [c].
Proof.
  intros Hc. induction a as [|x a IH]; simpl.
  - unfold is_sep. destruct (Ascii.eqb c sep) eqn:E; [|reflexivity].
    apply Ascii.eqb_eq in E. congruence.
  - rewrite IH. destruct a; reflexivity.
Qed.

Lemma forallb_is_sep_last (a : str) (c : ascii) (s : str) :
  c <> sep -> forallb is_sep ((a ++ [c]) ++ s) = false.
Proof.
  intros Hc. rewrite !forallb_app. simpl. unfold is_sep at 2.
  destruct (Ascii.eqb c sep) eqn:E.
  - apply Ascii.eqb_eq in E. congruence.
  - simpl. now rewrite andb_false_r.
Qed.

(** [dirname] of [parent/base] is [parent]. *)
Lemma dirname_parent (parent base : str) :
  parent <> [] ->
  endswith parent [sep] = false ->
  ~ In sep base ->
  dirname (parent ++ sep :: base) = parent.
Proof.
  intros Hne He Hb.
  destruct (exists_last Hne) as (a & c & ->).
  apply endswith_false_last in He.
  unfold dirname. rewrite head_to_last_sep_app by assumption.
  rewrite forallb_is_sep_last by assumption. simpl negb.
  rewrite rstrip_sep_app_sep by assumption.
  destruct a; reflexivity.
Qed.

End Paths.

(** C6, as amended.  Write [name] for the given file name, or ["none"] when
    none is given, and [dest] for the given destination folder, or
    [os.path.dirname] of the input path when none is given.  When [name]
    does not start with a slash the output path is [dest/name.mp4], no
    slash being inserted when [dest] is empty or already ends in one.  For
    an input path [parent/base], with [base] not empty and free of slashes
    and [parent] not empty and not ending in a slash, [os.path.dirname] of
    the input path is [parent]. *)
Theorem output_path_is_dest_slash_name (file_name : option str) (path : str)
  (destination_folder : option str) :
  (PyStr.startswith (supplied_or file_name (lit "none")) [OsPath.sep] = false ->
   output_path file_name path destination_folder
   = let dest := supplied_or destination_folder (OsPath.dirname path) in
     let name := supplied_or file_name (lit "none") in
     if (match dest with [] => true | _ => false end)
        || PyStr.endswith dest [OsPath.sep]
     then dest ++ name ++ lit ".mp4"
     else spec_output_path dest name)
  /\ (forall parent base : str,
         path = parent ++ OsPath.sep :: base ->
         base <> [] ->
         ~ In OsPath.sep base ->
         parent <> [] ->
         PyStr.endswith parent [OsPath.sep] = false ->
         OsPath.dirname path = parent).
Proof.
  split.
  - intros Hn. unfold output_path, spec_output_path. cbv zeta.
    change (match file_name with Some n => n | None => lit "none" end)
      with (supplied_or file_name (lit "none")).
    change (match destination_folder with
            | Some d => d
            | None => OsPath.dirname path
            end) with (supplied_or destination_folder (OsPath.dirname path)).
    unfold OsPath.join.
    rewrite (startswith_sep_app _ (lit ".mp4") Hn) by reflexivity.
    reflexivity.
  - intros parent base -> _ Hb Hp Hpe. now apply dirname_parent.
Qed.

Lemma output_path_is_dest_slash_name_witness :
  output_path (Some (lit "demo")) (lit "/data/in") (Some (lit "/tmp/out"))
  = lit "/tmp/out/demo.mp4"
  /\ output_path (Some (lit "demo")) (lit "images") (Some (lit "/tmp/out"))
     = lit "/tmp/out/demo.mp4"
  /\ output_path (Some (lit "demo")) (lit "/data/in") (Some (lit "/tmp/out/"))
     = lit "/tmp/out/demo.mp4"
  /\ output_path None (lit "/data/in") None = lit "/data/none.mp4"
  /\ OsPath.dirname (lit "/data/in") = lit "/data".
Proof.
  refine (conj _ (conj _ (conj _ (conj _ _)))).
  - exact (proj1 (output_path_is_dest_slash_name (Some (lit "demo"))
                    (lit "/data/in") (Some (lit "/tmp/out"))) eq_refl).
  - exact (proj1 (output_path_is_dest_slash_name (Some (lit "demo"))
                    (lit "images") (Some (lit "/tmp/out"))) eq_refl).
  - exact (proj1 (output_path_is_dest_slash_name (Some (lit "demo"))
                    (lit "/data/in") (Some (lit "/tmp/out/"))) eq_refl).
  - exact (proj1 (output_path_is_dest_slash_name None (lit "/data/in") None)
             eq_refl).
  - apply (proj2 (output_path_is_dest_slash_name None (lit "/data/in") None)
             (lit "/data") (lit "in"));
      solve [reflexivity | discriminate | simpl; intuition discriminate].
Defined.

(** C6, as stated, fails on a file name that starts with a slash:
    [os.path.join] then drops the destination folder. *)
Lemma output_path_absolute_name :
  output_path (Some (lit "/demo")) (lit "/data/in") (Some (lit "/tmp/out"))
  = lit "/demo.mp4"
  /\ output_path (Some (lit "/demo")) (lit "/data/in") (Some (lit "/tmp/out"))
     <> spec_output_path (lit "/tmp/out") (lit "/demo").
Proof. split; [reflexivity | discriminate]. Qed.

(** With a trailing slash on the input path, [dirname] is the input folder
    itself, not its parent. *)
Lemma dirname_trailing_slash :
  OsPath.dirname (lit "/data/in/") = lit "/data/in"
  /\ output_path None (lit "/data/in/") None = lit "/data/in/none.mp4".
Proof. split; reflexivity. Qed.

(** * Properties of the run *)

Section RunProperties.

Variable interp : Cv2.image -> Z -> Z -> Z -> Z -> Cv2.pixel.

(** ** The logging monad *)

Lemma bind_ok {A B : Type} (t : list event) (a : A) (k : A -> M B) :
  bind (t, Ok a) k = (t ++ fst (k a), snd (k a)).
Proof. unfold bind. destruct (k a); reflexivity. Qed.

Lemma bind_raise {A B : Type} (t : list event) (e : exn) (k : A -> M B) :
  bind (t, Raise e) k = (t, Raise e).
Proof. reflexivity. Qed.

Lemma for_each_app {A : Type} (l1 l2 : list A) (body : A -> M unit) :
  for_each (l1 ++ l2) body = (_ <~ for_each l1 body ;; for_each l2 body).
Proof.
  induction l1 as [|x l1 IH]; simpl.
  - unfold ret, bind. destruct (for_each l2 body); reflexivity.
  - rewrite IH. destruct (body x) as [t [[]|e]]; simpl; [|reflexivity].
    destruct (for_each l1 body) as [t1 [[]|e1]]; simpl; [|reflexivity].
    destruct (for_each l2 body) as [t2 r2]. now rewrite app_assoc.
Qed.

(** ** One iteration *)

Lemma add_frame_ok (w : world) (f : str) (fr : Cv2.image) :
  prepared interp w f = Ok fr ->
  add_frame interp w f = ([EvImread f; EvWrite fr; EvUpdate 1], Ok tt).
Proof.
  intros H. unfold add_frame, cv2_imread, lift. cbn.
  unfold prepared in H. rewrite H. reflexivity.
Qed.

Lemma add_frame_raise (w : world) (f : str) (e : exn) :
  prepared interp w f = Raise e ->
  add_frame interp w f = ([EvImread f], Raise e).
Proof.
  intros H. unfold add_frame, cv2_imread, lift. cbn.
  unfold prepared in H. rewrite H. reflexivity.
Qed.

Lemma prepared_undecodable (w : world) (f : str) :
  imread w f = None -> prepared interp w f = Raise AttributeError.
Proof. intros H. unfold prepared. rewrite H. reflexivity. Qed.

(** ** The loop *)

Lemma loop_log_cons (f : str) (fr : Cv2.image) (files : list str)
  (frames : list Cv2.image) :
  loop_log (f :: files) (fr :: frames)
  = [EvImread f; EvWrite fr; EvUpdate 1] ++ loop_log files frames.
Proof. reflexivity. Qed.

Lemma for_each_complete (w : world) (files : list str) (frames : list Cv2.image) :
  Forall2 (fun f fr => prepared interp w f = Ok fr) files frames ->
  for_each files (add_frame interp w) = (loop_log files frames, Ok tt).
Proof.
  induction 1 as [|f fr files frames Hf _ IH]; [reflexivity|].
  simpl for_each. rewrite (add_frame_ok _ _ _ Hf), bind_ok, IH. reflexivity.
Qed.

(** The loop either completes, or stops at the first file that cannot be
    prepared, right after handing it to the decoder. *)
Lemma for_each_cases (w : world) (files : list str) :
  (exists frames,
      Forall2 (fun f fr => prepared interp w f = Ok fr) files frames /\
      for_each files (add_frame interp w) = (loop_log files frames, Ok tt))
  \/
  (exists pre g post frames e,
      files = pre ++ g :: post /\
      Forall2 (fun f fr => prepared interp w f = Ok fr) pre frames /\
      prepared interp w g = Raise e /\
      for_each files (add_frame interp w) = (loop_log pre frames ++ [EvImread g], Raise e)).
Proof.
  induction files as [|f files IH].
  - left. exists []. split; [constructor | reflexivity].
  - destruct (prepared interp w f) as [fr|e] eqn:Hf.
    + destruct IH as [(frames & HF & Hrun) | (pre & g & post & frames & e & -> & HF & Hg & Hrun)].
      * left. exists (fr :: frames). split; [now constructor|].
        simpl for_each. rewrite (add_frame_ok _ _ _ Hf), bind_ok, Hrun. reflexivity.
      * right. exists (f :: pre), g, post, (fr :: frames), e.
        repeat split; [now constructor | assumption |].
        simpl for_each. rewrite (add_frame_ok _ _ _ Hf), bind_ok, Hrun. reflexivity.
    + right. exists [], f, files, [], e.
      repeat split; [constructor | assumption |].
      simpl for_each. rewrite (add_frame_raise _ _ _ Hf). reflexivity.
Qed.

(** ** Reading logs *)

Lemma frames_written_app (t1 t2 : list event) :
  frames_written (t1 ++ t2) = frames_written t1 ++ frames_written t2.
Proof. apply flat_map_app. Qed.

Lemma files_read_app (t1 t2 : list event) :
  files_read (t1 ++ t2) = files_read t1 ++ files_read t2.
Proof. apply flat_map_app. Qed.

Lemma files_opened_app (t1 t2 : list event) :
  files_opened (t1 ++ t2) = files_opened t1 ++ files_opened t2.
Proof. apply flat_map_app. Qed.

Lemma releases_app (t1 t2 : list event) :
  releases (t1 ++ t2) = (releases t1 + releases t2)%nat.
Proof. unfold releases. now rewrite filter_app, length_app. Qed.

Lemma loop_log_read (w : world) (files : list str) (frames : list Cv2.image) :
  Forall2 (fun f fr => prepared interp w f = Ok fr) files frames ->
  frames_written (loop_log files frames) = frames /\
  files_read (loop_log files frames) = files /\
  files_opened (loop_log files frames) = [] /\
  releases (loop_log files frames) = 0%nat.
Proof.
  induction 1 as [|f fr files frames _ _ (IH1 & IH2 & IH3 & IH4)].
  - repeat split.
  - rewrite loop_log_cons, frames_written_app, files_read_app,
      files_opened_app, releases_app, IH1, IH2, IH3, IH4.
    repeat split.
Qed.

Lemma Forall2_exists {A B : Type} (R : A -> B -> Prop) (l : list A) :
  Forall (fun a => exists b, R a b) l -> exists l', Forall2 R l l'.
Proof.
  induction 1 as [|a l [b Hb] _ [l' IH]].
  - exists []. constructor.
  - exists (b :: l'). now constructor.
Qed.


(** ** The whole run *)

Lemma run_unfold (w : world) (file_name : option str) (path : str)
  (destination_folder : option str) (f0 : str) (files : list str) (i0 : Cv2.image) :
  get_image_files w path = f0 :: files ->
  imread w f0 = Some i0 ->
  create_video_from_images interp w file_name path destination_folder
  = (let out := output_path file_name path destination_folder in
     _ <~ ([EvImread f0;
            EvVideoWriter out (lit "mp4v") output_fps output_width output_height;
            EvTqdm (Z.of_nat (List.length (f0 :: files)))], Ok tt) ;;
     _ <~ for_each (f0 :: files) (add_frame interp w) ;;
     _ <~ emit EvRelease ;;
     _ <~ emit EvDestroyAllWindows ;;
     _ <~ emit EvClose ;;
     emit (EvPrint (lit "Video created successfully at: " ++ out))).
Proof.
  intros Hfiles Hi0. unfold create_video_from_images. rewrite Hfiles.
  unfold index, lift, cv2_imread. cbn [nth_error]. rewrite !bind_ok. cbn [fst snd app].
  unfold emit at 1, ret at 1. rewrite !bind_ok. cbn [fst snd app].
  rewrite Hi0. unfold shape_of. rewrite !bind_ok. cbn [fst snd app].
  unfold emit at 1 2. rewrite !bind_ok. cbn [fst snd app].
  destruct (for_each (f0 :: files) (add_frame interp w)) as [t [[]|e]]; reflexivity.
Qed.

Lemma run_first_undecodable (w : world) (file_name : option str) (path : str)
  (destination_folder : option str) (f0 : str) (files : list str) :
  get_image_files w path = f0 :: files ->
  imread w f0 = None ->
  create_video_from_images interp w file_name path destination_folder
  = ([EvImread f0], Raise AttributeError).
Proof.
  intros Hfiles Hi0. unfold create_video_from_images. rewrite Hfiles.
  unfold index, lift, cv2_imread. cbn [nth_error]. rewrite !bind_ok. cbn [fst snd app].
  unfold emit at 1, ret at 1. rewrite !bind_ok. cbn [fst snd app].
  rewrite Hi0. reflexivity.
Qed.

Lemma prepared_decoded (w : world) (f : str) (fr : Cv2.image) :
  prepared interp w f = Ok fr -> exists i, imread w f = Some i.
Proof.
  unfold prepared. destruct (imread w f) as [i|]; [now exists i | discriminate].
Qed.

(** A run on files that can all be prepared completes, with this log. *)
Lemma run_complete (w : world) (file_name : option str) (path : str)
  (destination_folder : option str) (frames : list Cv2.image) :
  get_image_files w path <> [] ->
  Forall2 (fun f fr => prepared interp w f = Ok fr) (get_image_files w path) frames ->
  create_video_from_images interp w file_name path destination_folder
  = (complete_log (output_path file_name path destination_folder)
       (get_image_files w path) frames, Ok tt).
Proof.
  intros Hne HF. destruct (get_image_files w path) as [|f0 files] eqn:Hfiles; [congruence|].
  inversion HF as [|? fr0 ? frames' Hf0 HF']; subst.
  destruct (prepared_decoded _ _ _ Hf0) as [i0 Hi0].
  rewrite (run_unfold _ _ _ _ _ _ _ Hfiles Hi0). cbv zeta.
  rewrite (for_each_complete _ _ _ HF). unfold emit.
  rewrite !bind_ok. cbn [fst snd]. unfold complete_log. cbn [hd].
  reflexivity.
Qed.

(** A run stopped inside the loop, at the file [g]. *)
Lemma run_stopped (w : world) (file_name : option str) (path : str)
  (destination_folder : option str) (pre : list str) (g : str) (post : list str)
  (frames : list Cv2.image) (e : exn) (i0 : Cv2.image) :
  get_image_files w path = pre ++ g :: post ->
  imread w (hd g pre) = Some i0 ->
  Forall2 (fun f fr => prepared interp w f = Ok fr) pre frames ->
  prepared interp w g = Raise e ->
  create_video_from_images interp w file_name path destination_folder
  = ([EvImread (hd g pre);
      EvVideoWriter (output_path file_name path destination_folder) (lit "mp4v")
        output_fps output_width output_height;
      EvTqdm (Z.of_nat (List.length (pre ++ g :: post)))]
     ++ loop_log pre frames ++ [EvImread g], Raise e).
Proof.
  intros Hfiles Hi0 HF Hg.
  assert (Hhd : exists rest, pre ++ g :: post = hd g pre :: rest)
    by (destruct pre; eexists; reflexivity).
  destruct Hhd as [rest Hrest]. rewrite Hrest in Hfiles.
  rewrite (run_unfold _ _ _ _ _ _ _ Hfiles Hi0). cbv zeta.
  rewrite <- Hrest.
  change (pre ++ g :: post) with (pre ++ [g] ++ post) at 2.
  rewrite for_each_app, (for_each_complete _ _ _ HF), bind_ok.
  cbn [for_each app]. rewrite (add_frame_raise _ _ _ Hg).
  rewrite bind_raise. cbn [fst snd]. rewrite !bind_ok. cbn [fst snd]. reflexivity.
Qed.

(** Two ways of splitting one list around an element. *)
Lemma split_cases {A : Type} (a c : list A) (x y : A) (b d : list A) :
  a ++ x :: b = c ++ y :: d ->
  (exists r, c = a ++ x :: r) \/ (a = c /\ x = y) \/ (exists r, a = c ++ y :: r).
Proof.
  revert c. induction a as [|z a IH]; intros [|z' c] H; simpl in H.
  - right; left. now inversion H.
  - left. inversion H; subst. now exists c.
  - right; right. inversion H; subst. now exists a.
  - inversion H as [[Hz H']]; subst.
    destruct (IH _ H') as [[r ->] | [[-> ->] | [r ->]]].
    + left. now exists r.
    + right; left. now split.
    + right; right. now exists r.
Qed.

Lemma Forall2_In_l {A B : Type} (R : A -> B -> Prop) (l : list A) (l' : list B) (a : A) :
  Forall2 R l l' -> In a l -> exists b, R a b.
Proof.
  induction 1 as [|x y l l' Hxy _ IH]; intros Hin; [contradiction|].
  destruct Hin as [<- | Hin]; [now exists y | now apply IH].
Qed.

Lemma Forall2_length_eq {A B : Type} (R : A -> B -> Prop) (l : list A) (l' : list B) :
  Forall2 R l l' -> List.length l = List.length l'.
Proof. induction 1; simpl; congruence. Qed.

(** The entry point hands its three arguments over; without an input path
    it raises before anything else happens. *)
Lemma main_three_arguments (w : world) (prog name path dest : str) :
  main interp w [prog; name; path; dest]
  = create_video_from_images interp w (Some name) path (Some dest).
Proof.
  unfold main, lift, index. cbn [nth_error List.length Nat.ltb Nat.leb].
  rewrite bind_ok. cbn [fst snd app].
  now destruct (create_video_from_images interp w (Some name) path (Some dest)).
Qed.

Lemma main_without_path (w : world) (prog name : str) :
  main interp w [prog; name] = ([], Raise IndexError).
Proof. reflexivity. Qed.

(** ** Claims about the run *)

(** C5. When discovery finds no image file, the run raises [IndexError] at
    the read of the first entry: nothing was logged before, so no file was
    handed to the decoder, no video writer was opened and no output file
    exists. *)
Theorem empty_discovery_raises_before_open (w : world) (file_name : option str)
  (path : str) (destination_folder : option str) :
  get_image_files w path = [] ->
  create_video_from_images interp w file_name path destination_folder
  = ([], Raise IndexError)
  /\ files_opened (fst (create_video_from_images interp w file_name path
                          destination_folder)) = [].
Proof.
  intros H. unfold create_video_from_images. rewrite H. split; reflexivity.
Qed.

(** C10. For an input path that cannot be listed (it does not exist, is not
    a directory or is unreadable) discovery returns the empty list without
    raising, and the run ends in the same [IndexError], with the same empty
    log, as on an empty folder: no diagnostic about the path comes first. *)
Theorem unlistable_path_behaves_as_empty_folder (w w' : world)
  (file_name : option str) (path : str) (destination_folder : option str) :
  scandir w path = None ->
  scandir w' path = Some [] ->
  get_image_files w path = []
  /\ create_video_from_images interp w file_name path destination_folder
     = ([], Raise IndexError)
  /\ create_video_from_images interp w' file_name path destination_folder
     = create_video_from_images interp w file_name path destination_folder.
Proof.
  intros Hw Hw'.
  assert (E : get_image_files w path = []).
  { unfold get_image_files, os_walk. now rewrite Hw. }
  assert (E' : get_image_files w' path = []).
  { unfold get_image_files, os_walk. now rewrite Hw'. }
  split; [exact E|].
  unfold create_video_from_images. rewrite E, E'. split; reflexivity.
Qed.

(** C9. When a discovered file cannot be decoded, the run raises: the
    writer is never released, the files handed to the decoder are an
    initial segment of those up to and including that file (none after it
    is read) and no frame beyond the files before it is written.  When the
    files before it can all be prepared, the exception is the
    [AttributeError] of reading the shape of [None], raised right after
    that file was handed to the decoder, and the frames written are those
    of the files before it. *)
Theorem undecodable_image_aborts (w : world) (file_name : option str)
  (path : str) (destination_folder : option str)
  (pre : list str) (f : str) (post : list str) :
  get_image_files w path = pre ++ f :: post ->
  imread w f = None ->
  exists t e,
    create_video_from_images interp w file_name path destination_folder = (t, Raise e)
    /\ releases t = 0%nat
    /\ prefix_of (files_read t) (hd f pre :: pre ++ [f])
    /\ (List.length (frames_written t) <= List.length pre)%nat
    /\ (Forall (fun g => exists fr, prepared interp w g = Ok fr) pre ->
        e = AttributeError
        /\ files_read t = match pre with
                          | [] => [f]
                          | g :: _ => g :: pre ++ [f]
                          end
        /\ Forall2 (fun g fr => prepared interp w g = Ok fr) pre (frames_written t)).
Proof.
  intros Hfiles Hf.
  pose proof (prepared_undecodable _ _ Hf) as Hpf.
  assert (Hhd : exists rest, pre ++ f :: post = hd f pre :: rest)
    by (destruct pre; eexists; reflexivity).
  destruct Hhd as [rest Hrest].
  destruct (imread w (hd f pre)) as [i0|] eqn:Hi0.
  - destruct (for_each_cases w (get_image_files w path))
      as [(frames & HF & _) | (pre' & g & post' & frames & e & Hsplit & HF & Hg & _)].
    + exfalso. rewrite Hfiles in HF.
      destruct (Forall2_In_l _ _ _ f HF) as [fr Hfr];
        [apply in_elt | congruence].
    + rewrite Hfiles in Hsplit. symmetry in Hsplit.
      assert (Hhd' : hd g pre' = hd f pre).
      { destruct pre', pre; simpl in *; congruence. }
      rewrite <- Hhd' in Hi0. rewrite <- Hsplit in Hfiles.
      pose proof (run_stopped _ file_name _ destination_folder _ _ _ _ _ _
                    Hfiles Hi0 HF Hg) as Hrun.
      destruct (loop_log_read _ _ _ HF) as (L1 & L2 & L3 & L4).
      assert (Hread : forall n, files_read
                ([EvImread (hd g pre');
                  EvVideoWriter (output_path file_name path destination_folder)
                    (lit "mp4v") output_fps output_width output_height;
                  EvTqdm n] ++ loop_log pre' frames ++ [EvImread g])
              = hd g pre' :: pre' ++ [g]).
      { intros n. rewrite !files_read_app, L2. reflexivity. }
      assert (Hwr : forall n, frames_written
                ([EvImread (hd g pre');
                  EvVideoWriter (output_path file_name path destination_folder)
                    (lit "mp4v") output_fps output_width output_height;
                  EvTqdm n] ++ loop_log pre' frames ++ [EvImread g])
              = frames).
      { intros n. rewrite !frames_written_app, L1. cbn. now rewrite app_nil_r. }
      eexists _, e. split; [exact Hrun|].
      destruct (split_cases _ _ _ _ _ _ Hsplit) as [[r ->] | [[-> ->] | [r ->]]].
      * (* the loop stopped before [f] *)
        split; [rewrite !releases_app, L4; reflexivity|].
        split.
        { rewrite Hread, Hhd'. exists (r ++ [f]).
          cbn. f_equal. now rewrite <- !app_assoc. }
        split.
        { rewrite Hwr, <- (Forall2_length_eq _ _ _ HF), length_app. lia. }
        intros Hall. exfalso.
        rewrite Forall_forall in Hall.
        destruct (Hall g) as [fr Hfr]; [apply in_elt | congruence].
      * (* the loop stopped at [f] *)
        split; [rewrite !releases_app, L4; reflexivity|].
        split; [rewrite Hread; exists []; now rewrite app_nil_r|].
        split; [rewrite Hwr, <- (Forall2_length_eq _ _ _ HF); lia|].
        intros _. split; [congruence|]. split; [|now rewrite Hwr].
        rewrite Hread. destruct pre as [|g' pre]; [|reflexivity].
        cbn in Hi0. congruence.
      * (* [f] would have been prepared before the stop *)
        exfalso. destruct (Forall2_In_l _ _ _ f HF) as [fr Hfr];
          [apply in_elt | congruence].
  - (* the first file itself is undecodable *)
    rewrite Hrest in Hfiles.
    exists [EvImread (hd f pre)], AttributeError.
    split; [now apply (run_first_undecodable _ _ _ _ _ _ Hfiles)|].
    split; [reflexivity|].
    split; [exists (pre ++ [f]); reflexivity|].
    split; [cbn; lia|].
    intros Hall. split; [reflexivity|].
    destruct pre as [|g pre].
    + split; [reflexivity | constructor].
    + exfalso. cbn in Hi0. inversion Hall as [|? ? [fr Hfr] _]; subst.
      destruct (prepared_decoded _ _ _ Hfr) as [i Hi]. congruence.
Qed.

End RunProperties.

(** * Properties of the prepared frame *)

Section FrameProperties.

Variable interp : Cv2.image -> Z -> Z -> Z -> Z -> Cv2.pixel.

Lemma rbind_Ok {A B : Type} (r : result A) (k : A -> result B) (b : B) :
  rbind r k = Ok b -> exists a, r = Ok a /\ k a = Ok b.
Proof. destruct r as [a|e]; simpl; [now exists a | discriminate]. Qed.

(** The scaled size is both source dimensions scaled by one factor. *)
Lemma scaled_size_stages (sw sh tw th : Z) :
  scaled_size sw sh tw th
  = (s <- aspect_ratio sw sh tw th ;;
     new_width <- scaled sw s ;;
     new_height <- scaled sh s ;;
     Ok (new_width, new_height)).
Proof.
  unfold scaled_size, aspect_ratio, scaled.
  destruct (PyFloat.int_truediv tw sw) as [a|]; [|reflexivity].
  destruct (PyFloat.int_truediv th sh) as [b|]; [|reflexivity].
  cbn [rbind].
  destruct (PyFloat.int_mul_float sw (PyFloat.py_min a b)) as [pw|]; [|reflexivity].
  cbn [rbind]. destruct (PyFloat.int_of_float pw) as [nw|]; [|reflexivity].
  cbn [rbind].
  destruct (PyFloat.int_mul_float sh (PyFloat.py_min a b)) as [ph|]; reflexivity.
Qed.

(** [resize_image] in three stages: the scaled size, the resampling, the
    border. *)
Lemma resize_image_stages (img : Cv2.image) (width height : Z) :
  resize_image interp (Some img) width height
  = (nwh <- scaled_size (Cv2.cols img) (Cv2.rows img) width height ;;
     resized_image <- Cv2.resize interp img nwh ;;
     padding_width <- padding width (fst nwh) ;;
     padding_height <- padding height (snd nwh) ;;
     Cv2.copyMakeBorder resized_image padding_height padding_height
       padding_width padding_width Cv2.BORDER_CONSTANT).
Proof.
  unfold resize_image, scaled_size, padding. cbn [rbind].
  destruct (PyFloat.int_truediv width (Cv2.cols img)) as [a|]; [|reflexivity].
  destruct (PyFloat.int_truediv height (Cv2.rows img)) as [b|]; [|reflexivity].
  cbn [rbind].
  destruct (PyFloat.int_mul_float (Cv2.cols img) (PyFloat.py_min a b)) as [pw|];
    [|reflexivity].
  cbn [rbind]. destruct (PyFloat.int_of_float pw) as [nw|]; [|reflexivity].
  cbn [rbind].
  destruct (PyFloat.int_mul_float (Cv2.rows img) (PyFloat.py_min a b)) as [ph|];
    [|reflexivity].
  cbn [rbind]. destruct (PyFloat.int_of_float ph) as [nh|]; [|reflexivity].
  cbn [rbind fst snd].
  destruct (Cv2.resize interp img (nw, nh)) as [r|]; [|reflexivity].
  cbn [rbind].
  destruct (PyFloat.int_truediv (width - nw) 2) as [hw|]; [|reflexivity].
  cbn [rbind]. destruct (PyFloat.int_of_float hw) as [p|]; [|reflexivity].
  cbn [rbind].
  destruct (PyFloat.int_truediv (height - nh) 2) as [hh|]; reflexivity.
Qed.

Lemma resize_shape (img : Cv2.image) (w h : Z) (r : Cv2.image) :
  Cv2.resize interp img (w, h) = Ok r ->
  Cv2.cols r = w /\ Cv2.rows r = h /\ 0 < w /\ 0 < h.
Proof.
  unfold Cv2.resize.
  destruct (Cv2.c_int w && Cv2.c_int h && (0 <? w) && (0 <? h)) eqn:E;
    [|discriminate].
  intros [= <-]. cbn. rewrite !andb_true_iff in E. lia.
Qed.

Lemma copyMakeBorder_spec (src : Cv2.image) (top bottom left right : Z)
  (fr : Cv2.image) :
  Cv2.copyMakeBorder src top bottom left right Cv2.BORDER_CONSTANT = Ok fr ->
  0 <= top /\ 0 <= bottom /\ 0 <= left /\ 0 <= right
  /\ Cv2.rows fr = top + Cv2.rows src + bottom
  /\ Cv2.cols fr = left + Cv2.cols src + right
  /\ (forall y x, inside top left src y x ->
                  Cv2.px fr y x = Cv2.px src (y - top) (x - left))
  /\ (forall y x, ~ inside top left src y x -> Cv2.px fr y x = Cv2.black).
Proof.
  unfold Cv2.copyMakeBorder.
  match goal with |- (if ?c then _ else _) = _ -> _ => destruct c eqn:E end;
    [|discriminate].
  intros [= <-]. cbn. rewrite !andb_true_iff in E.
  repeat split; try lia.
  - intros y x [Hy Hx].
    replace ((top <=? y) && (y <? top + Cv2.rows src)
             && (left <=? x) && (x <? left + Cv2.cols src)) with true; [reflexivity|].
    symmetry. rewrite !andb_true_iff. lia.
  - intros y x Hout.
    destruct ((top <=? y) && (y <? top + Cv2.rows src)
              && (left <=? x) && (x <? left + Cv2.cols src)) eqn:E'; [|reflexivity].
    exfalso. apply Hout. rewrite !andb_true_iff in E'. unfold inside. lia.
Qed.

(** C8. Whenever [resize_image] returns a frame, that frame is the resampled
    picture surrounded by a border whose pixels all have value 0; the border
    has the same width [padding width new_width] on the left and on the
    right, and the same height [padding height new_height] at the top and at
    the bottom. *)
Theorem border_is_black_and_symmetric (image : option Cv2.image)
  (width height : Z) (fr : Cv2.image) :
  resize_image interp image width height = Ok fr ->
  exists img new_width new_height resized padding_width padding_height,
    image = Some img
    /\ scaled_size (Cv2.cols img) (Cv2.rows img) width height
       = Ok (new_width, new_height)
    /\ Cv2.resize interp img (new_width, new_height) = Ok resized
    /\ padding width new_width = Ok padding_width
    /\ padding height new_height = Ok padding_height
    /\ 0 <= padding_width /\ 0 <= padding_height
    /\ Cv2.cols fr = padding_width + Cv2.cols resized + padding_width
    /\ Cv2.rows fr = padding_height + Cv2.rows resized + padding_height
    /\ (forall y x, inside padding_height padding_width resized y x ->
          Cv2.px fr y x
          = Cv2.px resized (y - padding_height) (x - padding_width))
    /\ (forall y x, ~ inside padding_height padding_width resized y x ->
          Cv2.px fr y x = Cv2.black).
Proof.
  destruct image as [img|]; [|discriminate].
  rewrite resize_image_stages. intros H.
  apply rbind_Ok in H. destruct H as ([nw nh] & Hs & H).
  apply rbind_Ok in H. destruct H as (resized & Hr & H).
  apply rbind_Ok in H. destruct H as (pw & Hpw & H).
  apply rbind_Ok in H. destruct H as (ph & Hph & H).
  cbn [fst snd] in *.
  destruct (copyMakeBorder_spec _ _ _ _ _ _ H)
    as (Ht & _ & Hl & _ & Hrows & Hcols & Hin & Hout).
  exists img, nw, nh, resized, pw, ph. repeat split; try assumption; lia.
Qed.

(** C1, on a picture of 1439 by 1440 pixels.  The run completes and opens
    the writer for frames of 2560 by 1440, but the one frame it writes is
    2559 pixels wide: the scaled picture is 1439 wide, the gap of 1121 is
    odd, and 560 columns are added on each side. *)
Theorem odd_gap_frame_is_one_pixel_short :
  exists t fr,
    create_video_from_images interp odd_picture None in_dir None = (t, Ok tt)
    /\ In (EvVideoWriter (lit "/data/none.mp4") (lit "mp4v") 60 2560 1440) t
    /\ frames_written t = [fr]
    /\ Cv2.cols fr = 2559 /\ Cv2.rows fr = 1440.
Proof.
  eexists. eexists. split; [vm_compute; reflexivity|].
  split; [right; left; reflexivity|].
  split; [reflexivity|]. split; reflexivity.
Qed.

End FrameProperties.

Lemma border_is_black_and_symmetric_witness :
  exists fr padding_width padding_height,
    resize_image nearest (Some (grey 800 600)) 2560 1440 = Ok fr
    /\ padding 2560 1920 = Ok padding_width
    /\ padding 1440 1440 = Ok padding_height
    /\ Cv2.cols fr = padding_width + 1920 + padding_width
    /\ Cv2.rows fr = padding_height + 1440 + padding_height
    /\ Cv2.px fr 700 100 = Cv2.black.
Proof.
  assert (E : exists fr, resize_image nearest (Some (grey 800 600)) 2560 1440 = Ok fr)
    by (eexists; vm_compute; reflexivity).
  destruct E as [fr E].
  destruct (border_is_black_and_symmetric nearest _ _ _ _ E)
    as (img & nw & nh & resized & pw & ph & [= <-] & Hs & Hr & Hpw & Hph
        & _ & _ & Hc & Hrw & _ & Hout).
  assert (Hs' : scaled_size 800 600 2560 1440 = Ok (1920, 1440))
    by (vm_compute; reflexivity).
  cbn [grey Cv2.cols Cv2.rows] in Hs. rewrite Hs' in Hs. injection Hs as <- <-.
  destruct (resize_shape nearest _ _ _ _ Hr) as (Hrc & Hrr & _).
  assert (Hpw' : padding 2560 1920 = Ok 320) by (vm_compute; reflexivity).
  assert (Hph' : padding 1440 1440 = Ok 0) by (vm_compute; reflexivity).
  rewrite Hrc in Hc. rewrite Hrr in Hrw.
  exists fr, pw, ph. repeat split; try assumption.
  apply Hout. unfold inside. rewrite Hrc, Hrr.
  rewrite Hpw' in Hpw. rewrite Hph' in Hph.
  injection Hpw as <-. injection Hph as <-. lia.
Defined.

(** * The size of the prepared frame *)

Section FrameSize.

Variable interp : Cv2.image -> Z -> Z -> Z -> Z -> Cv2.pixel.

Lemma even_gap (target scaled_dim : Z) :
  0 <= scaled_dim <= target ->
  (target - scaled_dim) / 2 + scaled_dim + (target - scaled_dim) / 2
  = if Z.even (target - scaled_dim) then target else target - 1.
Proof.
  intros H.
  pose proof (Z.div_mod (target - scaled_dim) 2) as Hd.
  pose proof (Z.mod_pos_bound (target - scaled_dim) 2) as Hm.
  destruct (Z.even (target - scaled_dim)) eqn:E.
  - apply Z.even_spec in E. destruct E as [k Hk]. lia.
  - rewrite <- Z.negb_odd in E. apply negb_false_iff in E.
    apply Z.odd_spec in E. destruct E as [k Hk]. lia.
Qed.

Lemma half_gap_bounds (target scaled_dim : Z) :
  0 <= scaled_dim <= target -> 0 <= (target - scaled_dim) / 2 <= target.
Proof.
  intros H.
  pose proof (Z.div_mod (target - scaled_dim) 2) as Hd.
  pose proof (Z.mod_pos_bound (target - scaled_dim) 2) as Hm. lia.
Qed.

(** C2, as amended.  For a decoded image and a box with all four
    dimensions between 1 and [2 ^ 31 - 1], [resize_image] computes, in
    double precision, the scaled size [(int(sw * s), int(sh * s))] with
    [s = min(tw / sw, th / sh)]; each scaled dimension lies between 0 and
    the target; the padding of an axis is the integer half of its gap
    [target - scaled].  When both scaled dimensions are at least 1, the
    frame returned has that padding on both sides of each axis: on an axis
    with an even gap it has exactly the target dimension, on an axis with an
    odd gap one pixel less.  When a scaled dimension is 0, [cv2.resize]
    raises and no frame is returned. *)
Theorem resize_image_dimensions (img : Cv2.image) (width height : Z) :
  1 <= Cv2.cols img < 2 ^ 31 -> 1 <= Cv2.rows img < 2 ^ 31 ->
  1 <= width < 2 ^ 31 -> 1 <= height < 2 ^ 31 ->
  exists new_width new_height,
    scaled_size (Cv2.cols img) (Cv2.rows img) width height
    = Ok (new_width, new_height)
    /\ 0 <= new_width <= width
    /\ 0 <= new_height <= height
    /\ padding width new_width = Ok ((width - new_width) / 2)
    /\ padding height new_height = Ok ((height - new_height) / 2)
    /\ (1 <= new_width -> 1 <= new_height ->
        exists fr,
          resize_image interp (Some img) width height = Ok fr
          /\ Cv2.cols fr
             = (width - new_width) / 2 + new_width + (width - new_width) / 2
          /\ Cv2.rows fr
             = (height - new_height) / 2 + new_height + (height - new_height) / 2
          /\ Cv2.cols fr
             = (if Z.even (width - new_width) then width else width - 1)
          /\ Cv2.rows fr
             = (if Z.even (height - new_height) then height else height - 1))
    /\ (new_width = 0 \/ new_height = 0 ->
        resize_image interp (Some img) width height = Raise CvError).
Proof.
  intros Hsw Hsh Htw Hth.
  destruct (scaled_size_spec _ _ _ _ Hsw Hsh Htw Hth)
    as (a & b & pw & ph & nw & nh & _ & _ & _ & _ & _ & _ & Es & Hw & Hh & _).
  assert (Epw : padding width nw = Ok ((width - nw) / 2))
    by (apply padding_half; lia).
  assert (Eph : padding height nh = Ok ((height - nh) / 2))
    by (apply padding_half; lia).
  exists nw, nh. repeat (split; [assumption|]).
  rewrite resize_image_stages, Es. cbn [rbind fst snd]. split.
  - intros Hnw Hnh. unfold Cv2.resize.
    replace (Cv2.c_int nw && Cv2.c_int nh && (0 <? nw) && (0 <? nh)) with true
      by (symmetry; unfold Cv2.c_int; rewrite !andb_true_iff; lia).
    cbn [rbind]. rewrite Epw, Eph. cbn [rbind]. unfold Cv2.copyMakeBorder.
    set (pad_w := (width - nw) / 2). set (pad_h := (height - nh) / 2).
    assert (Hpw : 0 <= pad_w < 2 ^ 31)
      by (pose proof (half_gap_bounds width nw Hw); unfold pad_w; lia).
    assert (Hph : 0 <= pad_h < 2 ^ 31)
      by (pose proof (half_gap_bounds height nh Hh); unfold pad_h; lia).
    replace (Cv2.c_int pad_h && Cv2.c_int pad_h && Cv2.c_int pad_w && Cv2.c_int pad_w
             && (0 <=? pad_h) && (0 <=? pad_h) && (0 <=? pad_w) && (0 <=? pad_w))
      with true
      by (symmetry; unfold Cv2.c_int; rewrite !andb_true_iff; lia).
    eexists. split; [reflexivity|]. cbn [Cv2.cols Cv2.rows].
    split; [reflexivity|]. split; [reflexivity|].
    split; now apply even_gap.
  - intros H0. unfold Cv2.resize.
    replace (Cv2.c_int nw && Cv2.c_int nh && (0 <? nw) && (0 <? nh)) with false;
      [reflexivity|].
    symmetry. apply not_true_is_false. rewrite !andb_true_iff. lia.
Qed.

End FrameSize.

Lemma resize_image_dimensions_witness :
  exists fr,
    resize_image nearest (Some (grey 1920 1080)) 2560 1440 = Ok fr
    /\ Cv2.cols fr = 2560 /\ Cv2.rows fr = 1440.
Proof.
  destruct (resize_image_dimensions nearest (grey 1920 1080) 2560 1440)
    as (nw & nh & Es & _ & _ & _ & _ & Hfr & _); cbn [grey Cv2.cols Cv2.rows];
    try lia.
  assert (Es' : scaled_size 1920 1080 2560 1440 = Ok (2560, 1440))
    by (vm_compute; reflexivity).
  cbn [grey Cv2.cols Cv2.rows] in Es. rewrite Es' in Es. injection Es as <- <-.
  destruct Hfr as (fr & Efr & _ & _ & Hc & Hr); try lia.
  exists fr. repeat split; assumption.
Defined.

(** C2, as stated, fails on a picture of 1 by 10000 pixels: the scaled size
    is 0 by 1440, both gaps (2560 and 0) are even, and yet no frame of 2560
    by 1440 results, because [cv2.resize] rejects the empty size. *)
Lemma thin_picture_has_no_frame :
  scaled_size 1 10000 2560 1440 = Ok (0, 1440)
  /\ Z.even (2560 - 0) = true /\ Z.even (1440 - 1440) = true
  /\ resize_image nearest (Some (grey 1 10000)) 2560 1440 = Raise CvError.
Proof. repeat split; vm_compute; reflexivity. Qed.

(** The scaled size is computed in double precision: on a picture of 77 by
    43 pixels the quotient [2560 / 77] rounds down and [int(77 * s)] is
    2559, where the exact [floor(77 * min(2560/77, 1440/43))] is 2560. *)
Lemma double_precision_scaled_width :
  scaled_size 77 43 2560 1440 = Ok (2559, 1429)
  /\ Z.min (77 * 2560 / 77) (77 * 1440 / 43) = 2560.
Proof. split; vm_compute; reflexivity. Qed.

(** ** The run on sample folders *)

Lemma empty_discovery_raises_before_open_witness :
  create_video_from_images nearest no_pictures None in_dir None
  = ([], Raise IndexError)
  /\ files_opened (fst (create_video_from_images nearest no_pictures None in_dir None))
     = [].
Proof.
  apply (empty_discovery_raises_before_open nearest no_pictures None in_dir None).
  vm_compute. reflexivity.
Defined.

Lemma unlistable_path_behaves_as_empty_folder_witness :
  get_image_files no_folder in_dir = []
  /\ create_video_from_images nearest no_folder None in_dir None
     = ([], Raise IndexError)
  /\ create_video_from_images nearest (folder [] (fun _ => None)) None in_dir None
     = create_video_from_images nearest no_folder None in_dir None.
Proof.
  apply (unlistable_path_behaves_as_empty_folder nearest no_folder
           (folder [] (fun _ => None)) None in_dir None).
  - reflexivity.
  - vm_compute. reflexivity.
Defined.

Lemma undecodable_image_aborts_witness :
  exists t e,
    create_video_from_images nearest corrupt_second None in_dir None = (t, Raise e)
    /\ releases t = 0%nat
    /\ (List.length (frames_written t) <= 1)%nat.
Proof.
  destruct (undecodable_image_aborts nearest corrupt_second None in_dir None
              [lit "/data/in/a.jpg"] (lit "/data/in/bad.png") [lit "/data/in/c.jpeg"])
    as (t & e & Hrun & Hrel & _ & Hlen & _).
  - vm_compute. reflexivity.
  - vm_compute. reflexivity.
  - exists t, e. repeat split; assumption.
Defined.

(** * Further properties of the run *)

Section RunShapes.

Variable interp : Cv2.image -> Z -> Z -> Z -> Z -> Cv2.pixel.

(** The four ways a run can go. *)
Lemma run_cases (w : world) (file_name : option str) (path : str)
  (destination_folder : option str) :
  let files := get_image_files w path in
  let out := output_path file_name path destination_folder in
  let run := create_video_from_images interp w file_name path destination_folder in
  (files = [] /\ run = ([], Raise IndexError))
  \/ (exists f0 rest,
        files = f0 :: rest /\ imread w f0 = None
        /\ run = ([EvImread f0], Raise AttributeError))
  \/ (exists f0 rest i0 frames,
        files = f0 :: rest /\ imread w f0 = Some i0
        /\ Forall2 (fun f fr => prepared interp w f = Ok fr) files frames
        /\ run = (complete_log out files frames, Ok tt))
  \/ (exists pre g post frames e i0,
        files = pre ++ g :: post /\ imread w (hd g pre) = Some i0
        /\ Forall2 (fun f fr => prepared interp w f = Ok fr) pre frames
        /\ prepared interp w g = Raise e
        /\ run = (stopped_log out files pre frames g, Raise e)).
Proof.
  cbv zeta.
  destruct (get_image_files w path) as [|f0 rest] eqn:Hfiles.
  - left. split; [reflexivity|].
    unfold create_video_from_images. now rewrite Hfiles.
  - right. destruct (imread w f0) as [i0|] eqn:Hi0.
    + right.
      destruct (for_each_cases interp w (f0 :: rest))
        as [(frames & HF & _) | (pre & g & post & frames & e & Hsplit & HF & Hg & _)].
      * left. exists f0, rest, i0, frames. repeat split; try assumption.
        rewrite <- Hfiles in HF |- *. apply run_complete; [congruence | assumption].
      * right. exists pre, g, post, frames, e, i0.
        assert (Hhd : hd g pre = f0) by (destruct pre; simpl in *; congruence).
        assert (Hi : imread w (hd g pre) = Some i0) by now rewrite Hhd.
        repeat split; try assumption.
        unfold stopped_log. rewrite Hsplit.
        apply (run_stopped interp w file_name path destination_folder
                 pre g post frames e i0); try assumption.
        now rewrite Hfiles.
    + left. exists f0, rest. repeat split; try assumption.
      now apply (run_first_undecodable interp w _ _ _ f0 rest).
Qed.

Lemma Forall2_Forall_l {A B : Type} (R : A -> B -> Prop) (l : list A) (l' : list B) :
  Forall2 R l l' -> Forall (fun a => exists b, R a b) l.
Proof. induction 1 as [|a b l l' H _ IH]; constructor; [now exists b | assumption]. Qed.

Lemma progress_updates_app (t1 t2 : list event) :
  progress_updates (t1 ++ t2) = (progress_updates t1 + progress_updates t2)%nat.
Proof. unfold progress_updates. now rewrite filter_app, length_app. Qed.

Lemma loop_log_updates (files : list str) (frames : list Cv2.image) :
  List.length files = List.length frames ->
  progress_updates (loop_log files frames) = List.length frames.
Proof.
  revert frames. induction files as [|f files IH]; intros [|fr frames] H;
    try discriminate; [reflexivity|].
  rewrite loop_log_cons, progress_updates_app, IH by (simpl in H; lia).
  reflexivity.
Qed.

(** X2. The run completes exactly when at least one image file is discovered
    and every discovered file can be decoded and prepared. *)
Theorem run_completes_iff_all_prepared (w : world) (file_name : option str)
  (path : str) (destination_folder : option str) :
  snd (create_video_from_images interp w file_name path destination_folder) = Ok tt
  <-> get_image_files w path <> []
      /\ Forall (fun f => exists fr, prepared interp w f = Ok fr)
           (get_image_files w path).
Proof.
  split.
  - intros Hok.
    destruct (run_cases w file_name path destination_folder)
      as [(_ & E) | [(f0 & rest & _ & _ & E)
         | [(f0 & rest & i0 & frames & Hf & _ & HF & _)
           | (pre & g & post & frames & e & i0 & _ & _ & _ & _ & E)]]];
      try (rewrite E in Hok; discriminate).
    split; [congruence|]. eapply Forall2_Forall_l. exact HF.
  - intros [Hne Hall]. destruct (Forall2_exists _ _ Hall) as [frames HF].
    now rewrite (run_complete interp w file_name path destination_folder frames Hne HF).
Qed.

(** X3. The writer is opened at most once, at the computed output path, and
    exactly when a first file was discovered and decodes; it is released
    once when the run completes and never when the run raises. *)
Theorem writer_opened_once_released_on_success (w : world)
  (file_name : option str) (path : str) (destination_folder : option str) :
  files_opened (fst (create_video_from_images interp w file_name path
                       destination_folder))
  = match get_image_files w path with
    | [] => []
    | f0 :: _ =>
        match imread w f0 with
        | Some _ => [output_path file_name path destination_folder]
        | None => []
        end
    end
  /\ releases (fst (create_video_from_images interp w file_name path
                      destination_folder))
     = match snd (create_video_from_images interp w file_name path
                    destination_folder) with
       | Ok _ => 1%nat
       | Raise _ => 0%nat
       end.
Proof.
  destruct (run_cases w file_name path destination_folder)
    as [(Hf & E) | [(f0 & rest & Hf & Hi & E)
       | [(f0 & rest & i0 & frames & Hf & Hi & HF & E)
         | (pre & g & post & frames & e & i0 & Hf & Hi & HF & Hg & E)]]];
    rewrite E; cbn [fst snd].
  - rewrite Hf. split; reflexivity.
  - rewrite Hf, Hi. split; reflexivity.
  - rewrite Hf, Hi. rewrite <- Hf.
    destruct (loop_log_read interp w _ _ HF) as (_ & _ & L3 & L4).
    unfold complete_log. rewrite !files_opened_app, !releases_app, L3, L4.
    split; reflexivity.
  - destruct (loop_log_read interp w _ _ HF) as (_ & _ & L3 & L4).
    unfold stopped_log. rewrite !files_opened_app, !releases_app, L3, L4.
    rewrite Hf.
    replace (match pre ++ g :: post with [] => [] | f0 :: _ =>
               match imread w f0 with
               | Some _ => [output_path file_name path destination_folder]
               | None => []
               end end)
      with [output_path file_name path destination_folder].
    + split; reflexivity.
    + destruct pre; cbn in *; now rewrite Hi.
Qed.

(** X4. Whatever the outcome, the frames written are the prepared frames of an
    initial segment of the discovered files, in discovery order; the
    progress bar was advanced once per frame written; and only discovered
    files were handed to the decoder. *)
Theorem frames_follow_discovery (w : world) (file_name : option str)
  (path : str) (destination_folder : option str) :
  let t := fst (create_video_from_images interp w file_name path
                  destination_folder) in
  exists pre,
    prefix_of pre (get_image_files w path)
    /\ Forall2 (fun f fr => prepared interp w f = Ok fr) pre (frames_written t)
    /\ progress_updates t = List.length (frames_written t)
    /\ Forall (fun p => In p (get_image_files w path)) (files_read t).
Proof.
  cbv zeta.
  destruct (run_cases w file_name path destination_folder)
    as [(Hf & E) | [(f0 & rest & Hf & Hi & E)
       | [(f0 & rest & i0 & frames & Hf & Hi & HF & E)
         | (pre & g & post & frames & e & i0 & Hf & Hi & HF & Hg & E)]]];
    rewrite E; cbn [fst].
  - exists []. repeat split; try constructor. now exists (get_image_files w path).
  - exists []. repeat split; try constructor.
    + now exists (get_image_files w path).
    + rewrite Hf. now left.
    + constructor.
  - exists (get_image_files w path).
    destruct (loop_log_read interp w _ _ HF) as (L1 & L2 & _ & _).
    pose proof (Forall2_length_eq _ _ _ HF) as Hlen.
    unfold complete_log.
    rewrite !frames_written_app, !files_read_app, !progress_updates_app, L1, L2,
      (loop_log_updates _ _ Hlen).
    cbn. rewrite app_nil_r. repeat split.
    + exists []. now rewrite app_nil_r.
    + assumption.
    + lia.
    + constructor.
      * rewrite Hf. now left.
      * rewrite Forall_app. split; [|constructor].
        apply Forall_forall. now intros p Hp.
  - exists pre.
    destruct (loop_log_read interp w _ _ HF) as (L1 & L2 & _ & _).
    pose proof (Forall2_length_eq _ _ _ HF) as Hlen.
    unfold stopped_log.
    rewrite !frames_written_app, !files_read_app, !progress_updates_app, L1, L2,
      (loop_log_updates _ _ Hlen).
    cbn. rewrite app_nil_r. repeat split.
    + now exists (g :: post).
    + assumption.
    + lia.
    + rewrite Hf. constructor.
      * destruct pre; cbn; now left.
      * rewrite Forall_app. split.
        -- apply Forall_forall. intros p Hp. apply in_or_app. now left.
        -- constructor; [apply in_elt | constructor].
Qed.

(** X1. The entry point: with fewer than two arguments after the program name
    it raises [IndexError] before anything happens; otherwise it calls
    [create_video_from_images] with the first argument as the name (the
    default name is never used), the second as the input path and the third,
    when there is one, as the destination folder. *)
Theorem main_dispatch (w : world) (argv : list str) :
  main interp w argv
  = match argv with
    | _ :: name :: path :: rest =>
        create_video_from_images interp w (Some name) path (hd_error rest)
    | _ => ([], Raise IndexError)
    end.
Proof.
  destruct argv as [|prog [|name [|path rest]]]; try reflexivity.
  unfold main, lift, index. cbn [nth_error]. rewrite bind_ok. cbn [fst snd app].
  assert (E : (if (3 <? List.length (prog :: name :: path :: rest))%nat
               then match rest with [] => None | x :: _ => Some x end
               else None) = hd_error rest)
    by (destruct rest; reflexivity).
  rewrite E. cbn [List.length Nat.ltb Nat.leb].
  now destruct (create_video_from_images interp w (Some name) path (hd_error rest)).
Qed.

End RunShapes.

(** * Further properties of the output path and of discovery *)

Lemma join_keeps_last (a b : str) : exists pre, OsPath.join a b = pre ++ b.
Proof.
  unfold OsPath.join. destruct (PyStr.startswith b [OsPath.sep]).
  - now exists [].
  - destruct ((match a with [] => true | _ :: _ => false end)
              || PyStr.endswith a [OsPath.sep]).
    + now exists a.
    + exists (a ++ [OsPath.sep]). now rewrite <- app_assoc.
Qed.

Lemma join_empty (b : str) : OsPath.join [] b = b.
Proof. unfold OsPath.join. now destruct (PyStr.startswith b [OsPath.sep]). Qed.

Lemma dirname_no_sep (p : str) : ~ In OsPath.sep p -> OsPath.dirname p = [].
Proof.
  intros H. unfold OsPath.dirname.
  now rewrite head_to_last_sep_no_sep by assumption.
Qed.

(** X7. The output path always ends in [.mp4], whatever the name, the input
    path and the destination folder are. *)
Theorem output_path_ends_with_mp4 (file_name : option str) (path : str)
  (destination_folder : option str) :
  PyStr.endswith (output_path file_name path destination_folder) (lit ".mp4") = true.
Proof.
  unfold output_path.
  match goal with
  | |- PyStr.endswith (OsPath.join ?a (?n ++ _)) _ = _ =>
      destruct (join_keeps_last a (n ++ lit ".mp4")) as [pre ->]; apply endswith_iff;
      exists (pre ++ n)
  end.
  now rewrite <- app_assoc.
Qed.

(** X8. For an input path without a slash and no destination folder, the output
    path is the bare file name [name.mp4], relative to the working
    directory. *)
Theorem output_path_of_bare_input (file_name : option str) (path : str) :
  ~ In OsPath.sep path ->
  output_path file_name path None = supplied_or file_name (lit "none") ++ lit ".mp4".
Proof.
  intros H. unfold output_path. rewrite dirname_no_sep by assumption.
  rewrite join_empty. now destruct file_name.
Qed.

Lemma output_path_of_bare_input_witness :
  output_path None (lit "images") None = lit "none.mp4".
Proof.
  apply (output_path_of_bare_input None (lit "images")).
  simpl. intuition discriminate.
Defined.

(** X9. For an input path written as a folder path followed by one slash,
    the folder path being not empty and not itself ending in a slash, and
    no destination folder: [os.path.dirname] of the input path is the
    folder path itself, and when the name, given or ["none"], does not
    start with a slash the output path is [folder/name.mp4], so the video
    is written inside the folder of the pictures. *)
Theorem output_path_of_trailing_slash (file_name : option str) (folder_path : str) :
  folder_path <> [] ->
  PyStr.endswith folder_path [OsPath.sep] = false ->
  OsPath.dirname (folder_path ++ [OsPath.sep]) = folder_path
  /\ (PyStr.startswith (supplied_or file_name (lit "none")) [OsPath.sep] = false ->
      output_path file_name (folder_path ++ [OsPath.sep]) None
      = folder_path ++ OsPath.sep :: supplied_or file_name (lit "none") ++ lit ".mp4").
Proof.
  intros Hne He.
  assert (Hd : OsPath.dirname (folder_path ++ [OsPath.sep]) = folder_path).
  { apply (dirname_parent folder_path []); try assumption. intros []. }
  split; [exact Hd|]. intros Hn.
  unfold output_path. rewrite Hd.
  change (match file_name with Some n => n | None => lit "none" end)
    with (supplied_or file_name (lit "none")).
  apply join_plain; try assumption.
  now apply startswith_sep_app.
Qed.

Lemma output_path_of_trailing_slash_witness :
  OsPath.dirname (lit "/data/in/") = lit "/data/in"
  /\ output_path (Some (lit "demo")) (lit "/data/in/") None = lit "/data/in/demo.mp4".
Proof.
  destruct (output_path_of_trailing_slash (Some (lit "demo")) (lit "/data/in"))
    as [Hd Ho]; [discriminate | reflexivity |].
  split; [exact Hd | apply Ho; reflexivity].
Defined.

(** X10. Discovery lists the image files that lie directly in the input folder
    first, in the order of the folder's listing, and after them only files
    from the folders below it. *)
Theorem direct_files_come_first (w : world) (path : str) (es : list entry) :
  scandir w path = Some es ->
  exists below,
    get_image_files w path
    = map (OsPath.join path) (filter is_image_file (nondirs es)) ++ below
    /\ Forall (fun p => exists d cs name,
                 In (Dir d true cs) es
                 /\ file_under (OsPath.join path d) cs p name
                 /\ is_image_file name = true) below.
Proof.
  intros Hs. rewrite get_image_files_walk. unfold os_walk. rewrite Hs.
  exists (flat_map image_paths (flat_map (walk_entry path) es)).
  split; [reflexivity|].
  apply Forall_forall. intros p Hp.
  apply in_flat_map in Hp. destruct Hp as (triple & Ht & Hp).
  apply in_flat_map in Ht. destruct Ht as (e & He & Ht).
  assert (Hpe : In p (flat_map image_paths (walk_entry path e))).
  { apply in_flat_map. now exists triple. }
  apply (entry_spec_all e) in Hpe. destruct Hpe as (d & cs & name & -> & Hu & Hi).
  now exists d, cs, name.
Qed.

Lemma direct_files_come_first_witness :
  exists below,
    get_image_files three_pictures in_dir
    = [lit "/data/in/a.jpg"; lit "/data/in/c.jpeg"] ++ below
    /\ below = [lit "/data/in/more/b.JPG"].
Proof.
  destruct (direct_files_come_first three_pictures in_dir
              [File (lit "a.jpg"); File (lit "notes.txt");
               Dir (lit "more") true [File (lit "b.JPG")]; File (lit "c.jpeg")])
    as (below & E & _); [vm_compute; reflexivity|].
  exists below. split; [exact E|].
  assert (E' : get_image_files three_pictures in_dir
               = [lit "/data/in/a.jpg"; lit "/data/in/c.jpeg"; lit "/data/in/more/b.JPG"])
    by (vm_compute; reflexivity).
  rewrite E' in E.
  change (map (OsPath.join in_dir)
            (filter is_image_file
               (nondirs [File (lit "a.jpg"); File (lit "notes.txt");
                         Dir (lit "more") true [File (lit "b.JPG")];
                         File (lit "c.jpeg")])))
    with [lit "/data/in/a.jpg"; lit "/data/in/c.jpeg"] in E.
  simpl app in E. now injection E as <-.
Defined.

(** * Exact cases of the scaling *)

Section ExactScaling.

Import PyFloat.

Lemma Zdigits2_shift (n j : Z) :
  0 < n -> 0 <= j -> Zdigits2 (n * 2 ^ j) = Zdigits2 n + j.
Proof.
  intros Hn Hj. destruct (Zdigits2_bounds n Hn) as (Hd & Hb).
  assert (Hp : 0 < 2 ^ j) by (apply Z.pow_pos_nonneg; lia).
  apply Zdigits2_unique; [|nia].
  replace (Zdigits2 n + j - 1) with (Zdigits2 n - 1 + j) by lia.
  rewrite !Z.pow_add_r by lia. nia.
Qed.

Lemma represents_finite (f : spec_float) (n : Z) :
  represents f n ->
  exists m e,
    f = S754_finite false m e
    /\ 2 ^ 52 <= Zpos m < 2 ^ 53 /\ e <= 0 /\ Zpos m = n * 2 ^ (- e)
    /\ 0 < n /\ Zdigits2 n = 53 + e.
Proof.
  destruct f as [| | |[] m e]; try contradiction.
  intros (Hc & He & Hm). exists m, e.
  assert (Hp : 0 < 2 ^ (- e)) by (apply Z.pow_pos_nonneg; lia).
  assert (Hn : 0 < n) by nia.
  repeat split; try assumption; try lia.
  assert (Hd : Zdigits2 (Zpos m) = 53) by (apply Zdigits2_unique; simpl Z.sub; lia).
  rewrite Hm, Zdigits2_shift in Hd by lia. lia.
Qed.

Lemma float_of_int_represents (n : Z) :
  1 <= n < 2 ^ 53 -> exists f, float_of_int n = Ok f /\ represents f n.
Proof.
  intros Hn. destruct (float_of_int_exact n Hn) as (m & e & E & Hc & He & Hm).
  exists (S754_finite false m e). split; [assumption|].
  split; [assumption|]. split; assumption.
Qed.

(** A quotient that is an integer is computed exactly. *)
Lemma int_truediv_exact (b k : Z) :
  1 <= b -> 1 <= k -> b * k < 2 ^ 53 ->
  exists f, int_truediv (b * k) b = Ok f /\ represents f k.
Proof.
  intros Hb Hk Hbk.
  assert (Hb' : b < 2 ^ 53) by nia.
  destruct (int_truediv_core (b * k) b) as (l & E & Hs & Hq & Hdq & Hl);
    [nia | lia |].
  set (s := 53 + Zdigits2 b - Zdigits2 (b * k)) in *.
  assert (Hps : 0 < 2 ^ s) by (apply Z.pow_pos_nonneg; lia).
  assert (Eq : b * k * 2 ^ s / b = k * 2 ^ s).
  { replace (b * k * 2 ^ s) with (k * 2 ^ s * b) by ring. apply Z.div_mul. lia. }
  rewrite Eq in *.
  assert (Hlx : l = loc_Exact).
  { apply Hl. replace (b * k * 2 ^ s) with (k * 2 ^ s * b) by ring.
    apply Z.mod_mul. lia. }
  subst l.
  assert (Hsb : s <= 106).
  { destruct (Zdigits2_bounds (b * k)) as (Hd & _); [nia|].
    pose proof (Zdigits2_le b 53). unfold s. lia. }
  set (n := Zdigits2 (k * 2 ^ s) - 53) in *.
  assert (Hn : 0 <= n <= 1) by (unfold n; lia).
  assert (Hsplit : k * 2 ^ s = k * 2 ^ (s - n) * 2 ^ n).
  { rewrite <- Z.mul_assoc, <- Z.pow_add_r by lia. do 2 f_equal. lia. }
  assert (Hpn : 0 < 2 ^ n) by (apply Z.pow_pos_nonneg; lia).
  destruct (binary_round_aux_normal (k * 2 ^ s) (- s) loc_Exact)
    as (m & e & Er & Hc & _ & Hex); try lia.
  fold n in Hex. destruct Hex as (He & Hm); [reflexivity | |].
  { rewrite Hsplit. apply Z.mod_mul. lia. }
  rewrite Hsplit, Z.div_mul in Hm by lia.
  exists (S754_finite false m e). rewrite E, Er. split; [reflexivity|].
  split; [assumption|]. split; [lia|].
  rewrite Hm. do 2 f_equal. lia.
Qed.

(** A product that is an integer below [2 ^ 53] is computed exactly. *)
Lemma float_mul_exact (x y : spec_float) (d k : Z) :
  represents x d -> represents y k -> d * k < 2 ^ 53 ->
  represents (float_mul x y) (d * k).
Proof.
  intros Hx Hy Hdk.
  destruct (represents_finite _ _ Hx) as (mx & ex & -> & Hcx & Hex & Hmx & Hd & Hdd).
  destruct (represents_finite _ _ Hy) as (my & ey & -> & Hcy & Hey & Hmy & Hk & Hdk').
  pose proof (product_digits mx my Hcx Hcy) as Hpd.
  assert (HM : Zpos (mx * my) = d * k * 2 ^ (- ex - ey)).
  { rewrite Pos2Z.inj_mul, Hmx, Hmy.
    replace (- ex - ey) with (- ex + - ey) by lia.
    rewrite Z.pow_add_r by lia. ring. }
  assert (Hdk0 : 0 < d * k) by nia.
  pose proof (Zdigits2_le (d * k) 53) as HD.
  destruct (Zdigits2_bounds (d * k) Hdk0) as (HD0 & _).
  assert (HdM : Zdigits2 (Zpos (mx * my)) = Zdigits2 (d * k) + (- ex - ey)).
  { rewrite HM. apply Zdigits2_shift; lia. }
  set (D := Zdigits2 (d * k)) in *.
  set (n := Zdigits2 (Zpos (mx * my)) - 53) in *.
  assert (Hn : n = D - 53 - ex - ey) by (unfold n; lia).
  assert (Hsplit : Zpos (mx * my) = d * k * 2 ^ (53 - D) * 2 ^ n).
  { replace (d * k * 2 ^ (53 - D) * 2 ^ n) with (d * k * (2 ^ (53 - D) * 2 ^ n))
      by ring.
    rewrite <- Z.pow_add_r by lia. rewrite HM. do 2 f_equal. lia. }
  assert (Hpn : 0 < 2 ^ n) by (apply Z.pow_pos_nonneg; lia).
  unfold float_mul, SFmul. cbn [xorb].
  destruct (binary_round_aux_normal (Zpos (mx * my)) (ex + ey) loc_Exact)
    as (m & e & Er & Hc & _ & Hexact); try lia.
  fold n in Hexact. destruct Hexact as (He & Hm); [reflexivity | |].
  { rewrite Hsplit. apply Z.mod_mul. lia. }
  rewrite Hsplit, Z.div_mul in Hm by lia.
  rewrite Er. split; [assumption|]. split; [lia|].
  rewrite Hm. do 2 f_equal. lia.
Qed.

Lemma int_of_float_represents (f : spec_float) (n : Z) :
  represents f n -> int_of_float f = Ok n.
Proof.
  intros H. destruct (represents_finite _ _ H) as (m & e & -> & _ & He & Hm & _).
  cbn [int_of_float]. destruct e as [|p|p]; try lia.
  - simpl in Hm. f_equal. simpl. lia.
  - change (- Zneg p) with (Zpos p) in Hm. f_equal. rewrite Hm.
    apply Z.div_mul. assert (0 < 2 ^ Zpos p) by (apply Z.pow_pos_nonneg; lia). lia.
Qed.

Lemma py_min_represents (a b : spec_float) (k : Z) :
  represents a k -> represents b k -> represents (py_min a b) k.
Proof. intros Ha Hb. unfold py_min. destruct (SFltb b a); assumption. Qed.

(** A box that is the source enlarged by an integer factor is reached
    exactly. *)
Lemma scaled_size_exact (sw sh k : Z) :
  1 <= sw -> 1 <= sh -> 1 <= k -> sw * k < 2 ^ 53 -> sh * k < 2 ^ 53 ->
  scaled_size sw sh (sw * k) (sh * k) = Ok (sw * k, sh * k).
Proof.
  intros Hsw Hsh Hk Hwk Hhk.
  destruct (int_truediv_exact sw k) as (a & Ea & Ra); try lia.
  destruct (int_truediv_exact sh k) as (b & Eb & Rb); try lia.
  destruct (float_of_int_represents sw) as (fw & Ew & Rw); [nia|].
  destruct (float_of_int_represents sh) as (fh & Eh & Rh); [nia|].
  pose proof (py_min_represents a b k Ra Rb) as Rs.
  unfold scaled_size, int_mul_float. rewrite Ea, Eb. cbn [rbind].
  rewrite Ew. cbn [rbind].
  rewrite (int_of_float_represents _ _ (float_mul_exact _ _ _ _ Rw Rs Hwk)).
  cbn [rbind]. rewrite Eh. cbn [rbind].
  rewrite (int_of_float_represents _ _ (float_mul_exact _ _ _ _ Rh Rs Hhk)).
  reflexivity.
Qed.

End ExactScaling.

Section ExactFrame.

Variable interp : Cv2.image -> Z -> Z -> Z -> Z -> Cv2.pixel.

(** X11. When the box is the picture enlarged by an integer factor (the same on
    both axes), the frame has exactly the size of the box and no border:
    every pixel of the frame is a pixel of the resampled picture. *)
Theorem integer_upscale_fills_box (img : Cv2.image) (k : Z) :
  1 <= Cv2.cols img -> 1 <= Cv2.rows img -> 1 <= k ->
  Cv2.cols img * k < 2 ^ 31 -> Cv2.rows img * k < 2 ^ 31 ->
  exists fr,
    resize_image interp (Some img) (Cv2.cols img * k) (Cv2.rows img * k) = Ok fr
    /\ Cv2.cols fr = Cv2.cols img * k
    /\ Cv2.rows fr = Cv2.rows img * k
    /\ forall y x,
         0 <= y < Cv2.rows img * k -> 0 <= x < Cv2.cols img * k ->
         Cv2.px fr y x = interp img (Cv2.cols img * k) (Cv2.rows img * k) y x.
Proof.
  intros Hc Hr Hk Hwk Hhk.
  set (tw := Cv2.cols img * k) in *. set (th := Cv2.rows img * k) in *.
  assert (Htw : 1 <= tw) by (unfold tw; nia).
  assert (Hth : 1 <= th) by (unfold th; nia).
  rewrite resize_image_stages.
  unfold tw at 1, th at 1. rewrite scaled_size_exact by lia. fold tw th.
  cbn [rbind fst snd]. unfold Cv2.resize.
  replace (Cv2.c_int tw && Cv2.c_int th && (0 <? tw) && (0 <? th)) with true
    by (symmetry; unfold Cv2.c_int; rewrite !andb_true_iff; lia).
  cbn [rbind]. rewrite !padding_half by lia.
  rewrite !Z.sub_diag. change (0 / 2) with 0. cbn [rbind].
  unfold Cv2.copyMakeBorder. cbn [andb Cv2.c_int Z.leb Z.ltb Z.compare].
  eexists. split; [reflexivity|]. cbn [Cv2.cols Cv2.rows Cv2.px].
  split; [lia|]. split; [lia|].
  intros y x Hy Hx.
  replace ((0 <=? y) && (y <? 0 + th) && (0 <=? x) && (x <? 0 + tw)) with true
    by (symmetry; rewrite !andb_true_iff; lia).
  now rewrite !Z.sub_0_r.
Qed.

End ExactFrame.

Lemma integer_upscale_fills_box_witness :
  exists fr,
    resize_image nearest (Some (grey 1280 720)) 2560 1440 = Ok fr
    /\ Cv2.cols fr = 2560 /\ Cv2.rows fr = 1440
    /\ Cv2.px fr 0 0 = (128, 128, 128).
Proof.
  destruct (integer_upscale_fills_box nearest (grey 1280 720) 2)
    as (fr & E & Hc & Hr & Hpx); cbn [grey Cv2.cols Cv2.rows]; try lia.
  exists fr. cbn [grey Cv2.cols Cv2.rows] in *.
  change (1280 * 2) with 2560 in *. change (720 * 2) with 1440 in *.
  repeat split; try assumption.
  rewrite Hpx by lia. reflexivity.
Defined.

(** * How far the scaled picture fills the box *)

Section Filling.

Import PyFloat.

(** The rounded quotient from below; [4503599627370496] is [2 ^ 52]. *)
Lemma int_truediv_lower (a b : Z) (f : spec_float) :
  1 <= a < 2 ^ 53 -> 1 <= b < 2 ^ 53 ->
  int_truediv a b = Ok f ->
  (4503599627370495 * IZR a < 4503599627370497 * (value f * IZR b))%R.
Proof.
  intros Ha Hb Ef.
  destruct (int_truediv_core a b Ha Hb) as (l & E & Hs & Hq & Hdq & _).
  pose proof (Zdigits2_le a 53) as Hda. pose proof (Zdigits2_le b 53) as Hdb.
  destruct (Zdigits2_bounds a) as (Hda0 & _); [lia|].
  destruct (Zdigits2_bounds b) as (Hdb0 & _); [lia|].
  set (s := 53 + Zdigits2 b - Zdigits2 a) in *.
  set (q := a * 2 ^ s / b) in *.
  destruct (round_value q (- s) l) as (f' & Ef' & Hn & _ & Hl); try lia.
  rewrite Ef' in E.
  destruct (normal_in_finite _ _ _ Hn) as (m & e & -> & _).
  rewrite E in Ef. injection Ef as <-.
  assert (Hq52 : 2 ^ 52 <= q).
  { destruct (Zdigits2_bounds q Hq) as (_ & Hbq).
    assert (2 ^ 52 <= 2 ^ (Zdigits2 q - 1)) by (apply Z.pow_le_mono_r; lia). lia. }
  assert (Hlt : a * 2 ^ s < b * (q + 1)).
  { unfold q. apply Z.mul_succ_div_gt. lia. }
  change (2 ^ 52) with 4503599627370496 in Hq52.
  apply IZR_le in Hq52. apply IZR_lt in Hlt.
  rewrite !mult_IZR, plus_IZR, <- (bpow_IZR s) in Hlt by lia.
  pose proof (bpow_pos (- s)) as HB. pose proof (bpow_inv s) as Hinv.
  assert (Hb0 : (0 < IZR b)%R) by (apply IZR_lt; lia).
  set (B := bpow (- s)) in *. set (V := value (S754_finite false m e)) in *.
  (* [a < b * (q + 1) * B] *)
  assert (F1 : (IZR a < IZR b * (IZR q * B) + IZR b * B)%R).
  { replace (IZR a) with (IZR a * bpow s * B)%R
      by (rewrite Rmult_assoc, Hinv; ring).
    replace (IZR b * (IZR q * B) + IZR b * B)%R
      with (IZR b * (IZR q + 1) * B)%R by ring.
    apply Rmult_lt_compat_r; assumption. }
  assert (F2 : (4503599627370496 * (IZR b * B) <= IZR b * (IZR q * B))%R).
  { replace (4503599627370496 * (IZR b * B))%R
      with (IZR b * B * 4503599627370496)%R by ring.
    replace (IZR b * (IZR q * B))%R with (IZR b * B * IZR q)%R by ring.
    apply Rmult_le_compat_l; [|assumption].
    apply Rmult_le_pos; lra. }
  assert (F3 : (4503599627370495 * (IZR b * (IZR q * B))
                <= 4503599627370496 * (V * IZR b))%R).
  { replace (IZR b * (IZR q * B))%R with (IZR q * B * IZR b)%R by ring.
    apply scale_le; lra. }
  lra.
Qed.

(** The two quotients and the scale picked by [min]. *)
Lemma quotients_and_scale (sw sh tw th : Z) :
  1 <= sw < 2 ^ 31 -> 1 <= sh < 2 ^ 31 ->
  1 <= tw < 2 ^ 31 -> 1 <= th < 2 ^ 31 ->
  exists a b,
    int_truediv tw sw = Ok a
    /\ int_truediv th sh = Ok b
    /\ normal_in (-105) 1 a /\ normal_in (-105) 1 b
    /\ (4503599627370496 * (value a * IZR sw) <= 4503599627370497 * IZR tw)%R
    /\ (4503599627370495 * IZR tw < 4503599627370497 * (value a * IZR sw))%R
    /\ (4503599627370496 * (value b * IZR sh) <= 4503599627370497 * IZR th)%R
    /\ (4503599627370495 * IZR th < 4503599627370497 * (value b * IZR sh))%R
    /\ ((py_min a b = a /\ (value a <= value b)%R)
        \/ (py_min a b = b /\ (value b <= value a)%R)).
Proof.
  intros Hsw Hsh Htw Hth.
  destruct (int_truediv_value tw sw) as (a & Ea & Na & Ua); [lia | lia |].
  destruct (int_truediv_value th sh) as (b & Eb & Nb & Ub); [lia | lia |].
  pose proof (int_truediv_lower tw sw a) as La.
  pose proof (int_truediv_lower th sh b) as Lb.
  exists a, b. repeat (split; [assumption || (apply La || apply Lb); (assumption || lia)|]).
  destruct (SFltb_value _ _ _ _ b a Nb Na) as (Hlt & Hge).
  unfold py_min. destruct (SFltb b a).
  - right. split; [reflexivity|]. specialize (Hlt eq_refl). lra.
  - left. split; [reflexivity|]. now apply Hge.
Qed.

(** The axis whose quotient is the scale: the scaled dimension is the
    target or one less. *)
Lemma scaled_axis_filled (d t : Z) (s : spec_float) :
  1 <= d < 2 ^ 31 -> 1 <= t < 2 ^ 31 ->
  normal_in (-105) 1 s ->
  (4503599627370496 * (value s * IZR d) <= 4503599627370497 * IZR t)%R ->
  (4503599627370495 * IZR t < 4503599627370497 * (value s * IZR d))%R ->
  exists n, scaled d s = Ok n /\ t - 1 <= n <= t.
Proof.
  intros Hd Ht Hs Hu Hl.
  destruct (scaled_dimension d t s s Hd Ht Hs Hu (Rle_refl _))
    as (p & n & Ep & En & Hn & Hv & _ & Lp & _).
  exists n. unfold scaled. rewrite Ep. cbn [rbind]. split; [assumption|].
  split; [|lia].
  assert (Ht0 : (1 <= IZR t < 2147483648)%R).
  { change 2147483648%R with (IZR (2 ^ 31)). split; [apply IZR_le | apply IZR_lt]; lia. }
  rewrite (Rmult_comm (value s)) in Hl.
  assert (H : (IZR (t - 2) < IZR n)%R) by (rewrite minus_IZR; lra).
  apply lt_IZR in H. lia.
Qed.

(** The other axis: the scaled dimension is at least 1 when the picture is
    not thinner than the box allows. *)
Lemma scaled_axis_positive (d d' t' : Z) (s : spec_float) :
  1 <= d < 2 ^ 31 -> 1 <= d' < 2 ^ 31 -> 1 <= t' < 2 ^ 31 ->
  d' < d * t' ->
  normal_in (-105) 1 s ->
  (4503599627370495 * IZR t' < 4503599627370497 * (value s * IZR d'))%R ->
  forall p n,
    int_of_float p = Ok n ->
    (IZR n <= value p < IZR n + 1)%R ->
    (4503599627370495 * (IZR d * value s) <= 4503599627370496 * value p)%R ->
    1 <= n.
Proof.
  intros Hd Hd' Ht' Hlt Hs Hl p n _ Hv Lp.
  assert (Hd0 : (1 <= IZR d)%R) by (apply IZR_le; lia).
  assert (Hd'0 : (1 <= IZR d' < 2147483648)%R).
  { change 2147483648%R with (IZR (2 ^ 31)). split; [apply IZR_le | apply IZR_lt]; lia. }
  assert (HN : (IZR d' + 1 <= IZR t' * IZR d)%R).
  { rewrite <- mult_IZR, <- plus_IZR. apply IZR_le. lia. }
  (* both bounds multiplied onto the common product [value s * d' * d] *)
  assert (F1 : (4503599627370495 * (IZR t' * IZR d)
                <= 4503599627370497 * (value s * IZR d' * IZR d))%R)
    by (apply scale_le; lra).
  assert (F2 : (4503599627370495 * (value s * IZR d' * IZR d)
                <= 4503599627370496 * (value p * IZR d'))%R).
  { replace (value s * IZR d' * IZR d)%R with (IZR d * value s * IZR d')%R by ring.
    apply scale_le; lra. }
  assert (F3 : (IZR d' < value p * IZR d')%R) by lra.
  assert (Hp : (1 < value p)%R).
  { apply (Rmult_lt_reg_r (IZR d')); lra. }
  assert (H : (IZR 0 < IZR n)%R) by lra.
  apply lt_IZR in H. lia.
Qed.

End Filling.

Lemma half_of_small_gap (target n : Z) :
  target - 1 <= n <= target -> (target - n) / 2 = 0.
Proof. intros H. apply Z.div_small. lia. Qed.

(** X12. On at least one axis the scaled picture reaches the box up to one
    pixel, and that axis gets no border: the picture is letterboxed on one
    axis at most. *)
Theorem one_axis_fills_box (sw sh tw th : Z) :
  1 <= sw < 2 ^ 31 -> 1 <= sh < 2 ^ 31 ->
  1 <= tw < 2 ^ 31 -> 1 <= th < 2 ^ 31 ->
  exists new_width new_height,
    scaled_size sw sh tw th = Ok (new_width, new_height)
    /\ ((tw - 1 <= new_width <= tw /\ padding tw new_width = Ok 0)
        \/ (th - 1 <= new_height <= th /\ padding th new_height = Ok 0)).
Proof.
  intros Hsw Hsh Htw Hth.
  destruct (scaled_size_spec sw sh tw th Hsw Hsh Htw Hth)
    as (a' & b' & pw & ph & nw & nh & Ea' & Eb' & Epw & Enw & Eph & Enh & Es & Hw & Hh & _).
  destruct (quotients_and_scale sw sh tw th Hsw Hsh Htw Hth)
    as (a & b & Ea & Eb & Na & Nb & Ua & La & Ub & Lb & Hmin).
  rewrite Ea in Ea'. injection Ea' as <-. rewrite Eb in Eb'. injection Eb' as <-.
  exists nw, nh. split; [assumption|].
  destruct Hmin as [(Em & _) | (Em & _)]; rewrite Em in *.
  - left. destruct (scaled_axis_filled sw tw a Hsw Htw Na Ua La) as (n & En & Hn).
    unfold scaled in En. rewrite Epw in En. cbn [rbind] in En.
    rewrite Enw in En. injection En as <-.
    split; [assumption|].
    rewrite padding_half by lia. f_equal. now apply half_of_small_gap.
  - right. destruct (scaled_axis_filled sh th b Hsh Hth Nb Ub Lb) as (n & En & Hn).
    unfold scaled in En. rewrite Eph in En. cbn [rbind] in En.
    rewrite Enh in En. injection En as <-.
    split; [assumption|].
    rewrite padding_half by lia. f_equal. now apply half_of_small_gap.
Qed.

Lemma one_axis_fills_box_witness :
  exists new_width new_height,
    scaled_size 800 600 2560 1440 = Ok (new_width, new_height)
    /\ ((2560 - 1 <= new_width <= 2560 /\ padding 2560 new_width = Ok 0)
        \/ (1440 - 1 <= new_height <= 1440 /\ padding 1440 new_height = Ok 0)).
Proof. apply (one_axis_fills_box 800 600 2560 1440); lia. Defined.

Section Preparable.

Variable interp : Cv2.image -> Z -> Z -> Z -> Z -> Cv2.pixel.

(** A scaled size of at least one pixel on both axes gives a frame. *)
Lemma resize_image_of_scaled_size (img : Cv2.image) (width height nw nh : Z) :
  scaled_size (Cv2.cols img) (Cv2.rows img) width height = Ok (nw, nh) ->
  1 <= nw <= width -> 1 <= nh <= height ->
  width < 2 ^ 31 -> height < 2 ^ 31 ->
  exists fr,
    resize_image interp (Some img) width height = Ok fr
    /\ Cv2.cols fr = (if Z.even (width - nw) then width else width - 1)
    /\ Cv2.rows fr = (if Z.even (height - nh) then height else height - 1).
Proof.
  intros Es Hw Hh Htw Hth.
  rewrite resize_image_stages, Es. cbn [rbind fst snd]. unfold Cv2.resize.
  replace (Cv2.c_int nw && Cv2.c_int nh && (0 <? nw) && (0 <? nh)) with true
    by (symmetry; unfold Cv2.c_int; rewrite !andb_true_iff; lia).
  cbn [rbind]. rewrite !padding_half by lia. cbn [rbind].
  unfold Cv2.copyMakeBorder.
  set (pad_w := (width - nw) / 2). set (pad_h := (height - nh) / 2).
  assert (Hpw : 0 <= pad_w < 2 ^ 31)
    by (pose proof (half_gap_bounds width nw); unfold pad_w; lia).
  assert (Hph : 0 <= pad_h < 2 ^ 31)
    by (pose proof (half_gap_bounds height nh); unfold pad_h; lia).
  replace (Cv2.c_int pad_h && Cv2.c_int pad_h && Cv2.c_int pad_w && Cv2.c_int pad_w
           && (0 <=? pad_h) && (0 <=? pad_h) && (0 <=? pad_w) && (0 <=? pad_w))
    with true
    by (symmetry; unfold Cv2.c_int; rewrite !andb_true_iff; lia).
  eexists. split; [reflexivity|]. cbn [Cv2.cols Cv2.rows].
  split; apply even_gap; lia.
Qed.

(** X13. Every picture whose shape is strictly inside what the box can hold
    ([sw < sh * tw] and [sh < sw * th], with a box of at least 2 by 2) is
    prepared: [resize_image] returns a frame, of the size of the box up to
    one pixel on each axis. *)
Theorem balanced_picture_is_prepared (img : Cv2.image) (width height : Z) :
  1 <= Cv2.cols img < 2 ^ 31 -> 1 <= Cv2.rows img < 2 ^ 31 ->
  2 <= width < 2 ^ 31 -> 2 <= height < 2 ^ 31 ->
  Cv2.cols img < Cv2.rows img * width ->
  Cv2.rows img < Cv2.cols img * height ->
  exists fr,
    resize_image interp (Some img) width height = Ok fr
    /\ width - 1 <= Cv2.cols fr <= width
    /\ height - 1 <= Cv2.rows fr <= height.
Proof.
  intros Hsw Hsh Htw Hth Hwide Htall.
  set (sw := Cv2.cols img) in *. set (sh := Cv2.rows img) in *.
  destruct (scaled_size_spec sw sh width height)
    as (a' & b' & pw & ph & nw & nh & Ea' & Eb' & Epw & Enw & Eph & Enh & Es & Hw & Hh & _);
    try lia.
  destruct (quotients_and_scale sw sh width height)
    as (a & b & Ea & Eb & Na & Nb & Ua & La & Ub & Lb & Hmin); try lia.
  rewrite Ea in Ea'. injection Ea' as <-. rewrite Eb in Eb'. injection Eb' as <-.
  assert (Hpos : 1 <= nw /\ 1 <= nh).
  { destruct Hmin as [(Em & Hab) | (Em & Hba)]; rewrite Em in *.
    - (* the scale is the quotient of the widths *)
      destruct (scaled_axis_filled sw width a) as (n & En & Hn); try assumption; try lia.
      unfold scaled in En. rewrite Epw in En. cbn [rbind] in En.
      rewrite Enw in En. injection En as <-.
      split; [lia|].
      destruct (scaled_dimension sh height b a) as (p' & n' & Ep' & En' & _ & Hv & _ & Lp & _);
        try assumption; try lia.
      rewrite Eph in Ep'. injection Ep' as <-.
      rewrite Enh in En'. injection En' as <-.
      apply (scaled_axis_positive sh sw width a) with (p := ph); try assumption; lia.
    - (* the scale is the quotient of the heights *)
      destruct (scaled_axis_filled sh height b) as (n & En & Hn); try assumption; try lia.
      unfold scaled in En. rewrite Eph in En. cbn [rbind] in En.
      rewrite Enh in En. injection En as <-.
      split; [|lia].
      destruct (scaled_dimension sw width a b) as (p' & n' & Ep' & En' & _ & Hv & _ & Lp & _);
        try assumption; try lia.
      rewrite Epw in Ep'. injection Ep' as <-.
      rewrite Enw in En'. injection En' as <-.
      apply (scaled_axis_positive sw sh height b) with (p := pw); try assumption; lia. }
  destruct (resize_image_of_scaled_size img width height nw nh)
    as (fr & Efr & Hc & Hr); try assumption; try lia.
  exists fr. split; [assumption|]. rewrite Hc, Hr.
  destruct (Z.even (width - nw)), (Z.even (height - nh)); lia.
Qed.

End Preparable.

Lemma balanced_picture_is_prepared_witness :
  exists fr,
    resize_image nearest (Some (grey 100 3000)) 2560 1440 = Ok fr
    /\ 2560 - 1 <= Cv2.cols fr <= 2560
    /\ 1440 - 1 <= Cv2.rows fr <= 1440.
Proof.
  apply (balanced_picture_is_prepared nearest (grey 100 3000) 2560 1440);
    cbn [grey Cv2.cols Cv2.rows]; lia.
Defined.

(** The bounds are strict: a picture of 125440 by 49 pixels has exactly the
    shape [sw = sh * 2560]; the exact scaled height is 1, but [2560 / 125440]
    rounds down, [int(49 * s)] is 0 and [cv2.resize] raises. *)
Lemma boundary_picture_is_rejected :
  125440 = 49 * 2560
  /\ scaled_size 125440 49 2560 1440 = Ok (2560, 0)
  /\ resize_image nearest (Some (grey 125440 49)) 2560 1440 = Raise CvError.
Proof. repeat split; vm_compute; reflexivity. Qed.

(** * The frames of a run *)

Section WrittenFrames.

Variable interp : Cv2.image -> Z -> Z -> Z -> Z -> Cv2.pixel.

(** A frame returned for a picture within OpenCV's sizes has the size of
    the box up to one pixel on each axis. *)
Lemma returned_frame_size (img fr : Cv2.image) (width height : Z) :
  1 <= Cv2.cols img < 2 ^ 31 -> 1 <= Cv2.rows img < 2 ^ 31 ->
  1 <= width < 2 ^ 31 -> 1 <= height < 2 ^ 31 ->
  resize_image interp (Some img) width height = Ok fr ->
  width - 1 <= Cv2.cols fr <= width /\ height - 1 <= Cv2.rows fr <= height.
Proof.
  intros Hsw Hsh Htw Hth Hfr.
  destruct (scaled_size_spec _ _ _ _ Hsw Hsh Htw Hth)
    as (a & b & pw & ph & nw & nh & _ & _ & _ & _ & _ & _ & Es & Hw & Hh & _).
  pose proof Hfr as Hfr'. rewrite resize_image_stages, Es in Hfr'.
  cbn [rbind fst snd] in Hfr'.
  apply rbind_Ok in Hfr'. destruct Hfr' as (resized & Hr & _).
  destruct (resize_shape interp _ _ _ _ Hr) as (_ & _ & Hnw & Hnh).
  destruct (resize_image_of_scaled_size interp img width height nw nh)
    as (fr' & Efr & Hc & Hrw); try assumption; try lia.
  rewrite Efr in Hfr. injection Hfr as <-. rewrite Hc, Hrw.
  destruct (Z.even (width - nw)), (Z.even (height - nh)); lia.
Qed.

Lemma Forall2_Forall_r {A B : Type} (R : A -> B -> Prop) (P : B -> Prop)
  (l : list A) (l' : list B) :
  (forall a b, R a b -> P b) -> Forall2 R l l' -> Forall P l'.
Proof.
  intros H. induction 1 as [|a b l l' Hab _ IH]; constructor;
    [now apply (H a) | assumption].
Qed.

(** The frames a run can have written, by the way it went. *)
Lemma frames_written_cases (w : world) (file_name : option str) (path : str)
  (destination_folder : option str) :
  exists pre,
    Forall2 (fun f fr => prepared interp w f = Ok fr) pre
      (frames_written (fst (create_video_from_images interp w file_name path
                              destination_folder))).
Proof.
  destruct (run_cases interp w file_name path destination_folder)
    as [(Hf & E) | [(f0 & rest & Hf & Hi & E)
       | [(f0 & rest & i0 & frames & Hf & Hi & HF & E)
         | (pre & g & post & frames & e & i0 & Hf & Hi & HF & Hg & E)]]];
    rewrite E; cbn [fst].
  - exists []. constructor.
  - exists []. constructor.
  - exists (get_image_files w path).
    destruct (loop_log_read interp w _ _ HF) as (L1 & _).
    unfold complete_log. rewrite !frames_written_app, L1. cbn.
    now rewrite app_nil_r.
  - exists pre.
    destruct (loop_log_read interp w _ _ HF) as (L1 & _).
    unfold stopped_log. rewrite !frames_written_app, L1. cbn.
    now rewrite app_nil_r.
Qed.

(** X5. Every frame a run writes is 2560 or 2559 pixels wide and 1440 or 1439
    pixels high, whatever the sizes of the pictures, as long as the decoder
    returns pictures within OpenCV's sizes. *)
Theorem written_frames_are_box_sized (w : world) (file_name : option str)
  (path : str) (destination_folder : option str) :
  (forall p i, imread w p = Some i ->
               1 <= Cv2.cols i < 2 ^ 31 /\ 1 <= Cv2.rows i < 2 ^ 31) ->
  Forall (fun fr => output_width - 1 <= Cv2.cols fr <= output_width
                    /\ output_height - 1 <= Cv2.rows fr <= output_height)
    (frames_written (fst (create_video_from_images interp w file_name path
                            destination_folder))).
Proof.
  intros Hdec.
  destruct (frames_written_cases w file_name path destination_folder) as [pre HF].
  eapply Forall2_Forall_r; [|exact HF].
  intros f fr Hp. cbv beta in Hp.
  destruct (prepared_decoded interp _ _ _ Hp) as [i Hi].
  destruct (Hdec _ _ Hi) as (Hc & Hr).
  unfold prepared in Hp. rewrite Hi in Hp.
  apply (returned_frame_size i fr output_width output_height);
    try assumption; unfold output_width, output_height; lia.
Qed.

(** X6. On a run that completes, the progress bar was created with the number
    of discovered files as its total and advanced exactly that many
    times. *)
Theorem progress_bar_ends_full (w : world) (file_name : option str)
  (path : str) (destination_folder : option str) :
  snd (create_video_from_images interp w file_name path destination_folder) = Ok tt ->
  In (EvTqdm (Z.of_nat (List.length (get_image_files w path))))
     (fst (create_video_from_images interp w file_name path destination_folder))
  /\ progress_updates
       (fst (create_video_from_images interp w file_name path destination_folder))
     = List.length (get_image_files w path).
Proof.
  intros Hok.
  destruct (run_cases interp w file_name path destination_folder)
    as [(_ & E) | [(f0 & rest & _ & _ & E)
       | [(f0 & rest & i0 & frames & Hf & _ & HF & E)
         | (pre & g & post & frames & e & i0 & _ & _ & _ & _ & E)]]];
    rewrite E in Hok |- *; try discriminate.
  cbn [fst]. pose proof (Forall2_length_eq _ _ _ HF) as Hlen.
  unfold complete_log. split.
  - right. right. now left.
  - rewrite !progress_updates_app, (loop_log_updates _ _ Hlen). cbn. lia.
Qed.

End WrittenFrames.

Lemma written_frames_are_box_sized_witness :
  Forall (fun fr => output_width - 1 <= Cv2.cols fr <= output_width
                    /\ output_height - 1 <= Cv2.rows fr <= output_height)
    (frames_written (fst (create_video_from_images nearest three_pictures None
                            in_dir None))).
Proof.
  apply (written_frames_are_box_sized nearest three_pictures None in_dir None).
  intros p i. cbn [three_pictures folder imread].
  destruct (PyStr.endswith p (lit "a.jpg"));
    [intros [= <-]; cbn; lia|].
  destruct (PyStr.endswith p (lit "b.JPG"));
    [intros [= <-]; cbn; lia|].
  destruct (PyStr.endswith p (lit "c.jpeg"));
    [intros [= <-]; cbn; lia | discriminate].
Defined.

Lemma progress_bar_ends_full_witness :
  In (EvTqdm 3) (fst (create_video_from_images nearest three_pictures None in_dir None))
  /\ progress_updates
       (fst (create_video_from_images nearest three_pictures None in_dir None))
     = 3%nat.
Proof.
  assert (E : get_image_files three_pictures in_dir
              = [lit "/data/in/a.jpg"; lit "/data/in/c.jpeg"; lit "/data/in/more/b.JPG"])
    by (vm_compute; reflexivity).
  pose proof (progress_bar_ends_full nearest three_pictures None in_dir None) as H.
  rewrite E in H. apply H. vm_compute. reflexivity.
Defined.

(** * The frames of the produced video *)

Section VideoFrames.

Variable interp : Cv2.image -> Z -> Z -> Z -> Z -> Cv2.pixel.



(** C3, on a folder holding one picture of 1439 by 1440 pixels.  One file is
    discovered and the run completes: the file is decoded, one frame is
    handed to the writer and the writer is released once.  But that frame is
    2559 pixels wide while the writer was opened for frames of 2560 by 1440,
    so the writer drops it: the video holds no frame for one discovered
    file. *)
Theorem odd_picture_video_has_no_frame :
  exists t fr,
    create_video_from_images interp odd_picture None in_dir None = (t, Ok tt)
    /\ get_image_files odd_picture in_dir = [lit "/data/in/odd.png"]
    /\ In (EvVideoWriter (lit "/data/none.mp4") (lit "mp4v") 60 2560 1440) t
    /\ frames_written t = [fr]
    /\ (Cv2.cols fr, Cv2.rows fr) = (2559, 1440)
    /\ releases t = 1%nat
    /\ video_frames t = []
    /\ List.length (video_frames t)
       <> List.length (get_image_files odd_picture in_dir).
Proof.
  eexists. eexists. split; [vm_compute; reflexivity|].
  split; [reflexivity|]. split; [right; left; reflexivity|].
  split; [reflexivity|]. split; [reflexivity|]. split; [reflexivity|].
  split; [reflexivity | discriminate].
Qed.


End VideoFrames.


(** * The scaled size against exact arithmetic *)

Section ScaledSize.

Import PyFloat.




Variable interp : Cv2.image -> Z -> Z -> Z -> Z -> Cv2.pixel.


End ScaledSize.

